(** * Jinja template migrator: a shallow embedding of [migrator.py]

    The development follows the structure of the Python source:

    - [Text]: characters and the [str] operations the program uses
      ([strip], [lower], [in], [join], [repr]);
    - [Regex]: the fragment of Python's [re] module the program's patterns
      live in, as a backtracking matcher with [match], [finditer] and [sub];
    - [PyDict]: insertion-ordered dictionaries;
    - [PurePath]: the [pathlib] accessors [parts], [name] and [stem];
    - [Migrator]: the methods of the [JinjaMigrator] class and the batch
      loop of [main], with the migrator object as an explicit state;
    - [Samples]: templates, stores and environments used in examples.

    Strings are sequences of code points below 256 (Latin-1 text); the
    character classes, [lower] and [repr] are those of Python on that
    range. *)

From Stdlib Require Import Ascii String List Arith Lia Bool.
From stdpp Require Import base list strings gmap sorting.

Local Open Scope list_scope.

(** ** Characters and string helpers *)

Module Text.

Definition code (c : ascii) : nat := nat_of_ascii c.

Definition between (lo hi : nat) (c : ascii) : bool :=
  (lo <=? code c) && (code c <=? hi).

(** [str.isspace] on one code point; also the class [\s] of [re]. *)
Definition is_space (c : ascii) : bool :=
  between 9 13 c || between 28 32 c || (code c =? 133) || (code c =? 160).

(** The class [\w] of [re] for [str] patterns: alphanumeric or underscore. *)
Definition is_word (c : ascii) : bool :=
  between 48 57 c || between 65 90 c || between 97 122 c || (code c =? 95)
  || (code c =? 170) || (code c =? 178) || (code c =? 179) || (code c =? 181)
  || between 185 186 c || between 188 190 c
  || between 192 214 c || between 216 246 c || between 248 255 c.

(** [str.lower] on one code point. *)
Definition lower_char (c : ascii) : ascii :=
  if between 65 90 c || between 192 214 c || between 216 222 c
  then ascii_of_nat (code c + 32) else c.

Definition chars (s : string) : list ascii := list_ascii_of_string s.
Definition text (l : list ascii) : string := string_of_list_ascii l.

Definition lower (s : string) : string := text (map lower_char (chars s)).

(** [str.strip()] with no argument. *)
Fixpoint lstrip_chars (l : list ascii) : list ascii :=
  match l with
  | c :: l' => if is_space c then lstrip_chars l' else l
  | [] => []
  end.

Definition strip_chars (l : list ascii) : list ascii :=
  rev (lstrip_chars (rev (lstrip_chars l))).

Definition strip (s : string) : string := text (strip_chars (chars s)).

(** [w] is a prefix of [l]; the remainder is returned. *)
Fixpoint strip_prefix (w l : list ascii) : option (list ascii) :=
  match w, l with
  | [], _ => Some l
  | a :: w', b :: l' => if Ascii.eqb a b then strip_prefix w' l' else None
  | _ :: _, [] => None
  end.

(** [sub in s] for strings. *)
Fixpoint contains_chars (w l : list ascii) : bool :=
  match strip_prefix w l with
  | Some _ => true
  | None => match l with
            | [] => false
            | _ :: l' => contains_chars w l'
            end
  end.

Definition contains (w s : string) : bool := contains_chars (chars w) (chars s).

(** [sep.join(items)]. *)
Fixpoint join (sep : string) (items : list string) : string :=
  match items with
  | [] => EmptyString
  | [x] => x
  | x :: rest => x +:+ sep +:+ join sep rest
  end.

(** Number of (possibly overlapping) occurrences of [w] in [l]. *)
Fixpoint count_chars (w l : list ascii) : nat :=
  (match strip_prefix w l with Some _ => 1 | None => 0 end) +
  match l with
  | [] => 0
  | _ :: l' => count_chars w l'
  end.

Definition count (w s : string) : nat := count_chars (chars w) (chars s).

(** *** [repr] of a [str] *)

Definition hex_digit (n : nat) : ascii :=
  if n <? 10 then ascii_of_nat (48 + n) else ascii_of_nat (87 + n).

Definition backslash : ascii := ascii_of_nat 92.
Definition squote : ascii := ascii_of_nat 39.
Definition dquote : ascii := ascii_of_nat 34.

Definition printable (c : ascii) : bool :=
  between 32 126 c || (between 161 255 c && negb (code c =? 173)).

Definition repr_char (quote : ascii) (c : ascii) : list ascii :=
  if Ascii.eqb c quote || Ascii.eqb c backslash then [backslash; c]
  else if code c =? 9 then [backslash; "t"%char]
  else if code c =? 10 then [backslash; "n"%char]
  else if code c =? 13 then [backslash; "r"%char]
  else if printable c then [c]
  else [backslash; "x"%char; hex_digit (code c / 16); hex_digit (code c mod 16)].

Definition has_char (c : ascii) (l : list ascii) : bool :=
  existsb (Ascii.eqb c) l.

Definition repr_str (s : string) : string :=
  let l := chars s in
  let quote := if has_char squote l && negb (has_char dquote l) then dquote else squote in
  text ([quote] ++ concat (map (repr_char quote) l) ++ [quote]).

End Text.

(** ** Regular expressions

    The patterns of the program use literals, the classes [\s], [\w], [.]
    (under [re.DOTALL]) and [[^%]], greedy and lazy repetition of a class,
    an optional non-capturing group, capturing groups, a back-reference and
    the anchors [\b] and [$].  The matcher is a backtracking matcher in
    continuation-passing style, which is how [re] explores alternatives:
    a greedy repetition tries the longer match first, a lazy one the
    shorter, and the first alternative that lets the rest of the pattern
    succeed wins. *)

Module Regex.
Import Text.

Inductive cclass : Type :=
| Char (c : ascii)        (* a literal character *)
| NotChar (c : ascii)     (* [^c] *)
| Space                   (* \s *)
| Word                    (* \w *)
| AnyChar.                (* . with re.DOTALL *)

Definition accepts (cl : cclass) (a : ascii) : bool :=
  match cl with
  | Char c => Ascii.eqb c a
  | NotChar c => negb (Ascii.eqb c a)
  | Space => is_space a
  | Word => is_word a
  | AnyChar => true
  end.

Inductive regex : Type :=
| Empty
| Atom (cl : cclass)
| Star (cl : cclass) (greedy : bool)      (* cl* and cl*? *)
| Cat (r1 r2 : regex)
| Opt (r : regex)                         (* (?:r)? *)
| Group (n : nat) (r : regex)             (* the n-th capturing group *)
| Backref (n : nat)                       (* \n *)
| Boundary                                (* \b *)
| Dollar.                                 (* $ *)

(** [cl+] and [cl+?]. *)
Definition Plus (cl : cclass) (greedy : bool) : regex :=
  Cat (Atom cl) (Star cl greedy).

Fixpoint cat_all (rs : list regex) : regex :=
  match rs with
  | [] => Empty
  | [r] => r
  | r :: rs' => Cat r (cat_all rs')
  end.

(** A literal string; this is what [re.escape(s)] denotes. *)
Fixpoint lit_chars (l : list ascii) : regex :=
  match l with
  | [] => Empty
  | c :: l' => Cat (Atom (Char c)) (lit_chars l')
  end.

Definition escape (s : string) : regex := lit_chars (chars s).

(** The state of a match attempt: the characters before the cursor (most
    recent first), the characters from the cursor on, and the groups that
    are set. *)
Record cursor : Type := Cursor {
  seen : list ascii;
  rest : list ascii;
  groups : list (nat * list ascii)
}.

Definition lookup_group (n : nat) (gs : list (nat * list ascii)) : option (list ascii) :=
  snd <$> find (fun g => fst g =? n) gs.

Definition set_group (n : nat) (v : list ascii) (gs : list (nat * list ascii)) :=
  (n, v) :: filter (fun g => negb (fst g =? n)) gs.

Definition step (a : ascii) (t : list ascii) (cu : cursor) : cursor :=
  Cursor (a :: seen cu) t (groups cu).

(** The text consumed between an earlier cursor and a later one. *)
Definition consumed (from to : cursor) : list ascii :=
  rev (take (length (seen to) - length (seen from)) (seen to)).

Definition first_word (l : list ascii) : bool :=
  match l with
  | a :: _ => is_word a
  | [] => false
  end.

(** [\b]: exactly one side of the cursor is a word character (the ends of
    the text count as non-word, so an empty text has no boundary). *)
Definition at_boundary (cu : cursor) : bool :=
  negb (Bool.eqb (first_word (seen cu)) (first_word (rest cu))).

(** [$] without [re.MULTILINE]: at the end, or before a final newline. *)
Definition at_end (cu : cursor) : bool :=
  match rest cu with
  | [] => true
  | [a] => code a =? 10
  | _ => false
  end.

Definition orelse {A} (x : option A) (y : option A) : option A :=
  match x with
  | Some _ => x
  | None => y
  end.

Fixpoint advance (w : list ascii) (cu : cursor) : option cursor :=
  match w with
  | [] => Some cu
  | a :: w' =>
      match rest cu with
      | b :: t => if Ascii.eqb a b then advance w' (step b t cu) else None
      | [] => None
      end
  end.

(** Repetition of a class, by recursion on the text ahead. *)
Fixpoint star (cl : cclass) (greedy : bool) (sn rs : list ascii)
    (gs : list (nat * list ascii)) (k : cursor -> option cursor) : option cursor :=
  match rs with
  | [] => k (Cursor sn [] gs)
  | a :: t =>
      if accepts cl a then
        if greedy
        then orelse (star cl greedy (a :: sn) t gs k) (k (Cursor sn rs gs))
        else orelse (k (Cursor sn rs gs)) (star cl greedy (a :: sn) t gs k)
      else k (Cursor sn rs gs)
  end.

Fixpoint run (r : regex) (cu : cursor) (k : cursor -> option cursor) : option cursor :=
  match r with
  | Empty => k cu
  | Atom cl =>
      match rest cu with
      | a :: t => if accepts cl a then k (step a t cu) else None
      | [] => None
      end
  | Star cl greedy => star cl greedy (seen cu) (rest cu) (groups cu) k
  | Cat r1 r2 => run r1 cu (fun cu' => run r2 cu' k)
  | Opt r1 => orelse (run r1 cu k) (k cu)
  | Group n r1 =>
      run r1 cu (fun cu' =>
        k (Cursor (seen cu') (rest cu') (set_group n (consumed cu cu') (groups cu'))))
  | Backref n =>
      match lookup_group n (groups cu) with
      | Some w => match advance w cu with
                  | Some cu' => k cu'
                  | None => None
                  end
      | None => None
      end
  | Boundary => if at_boundary cu then k cu else None
  | Dollar => if at_end cu then k cu else None
  end.

(** One match attempt at the cursor.  With [must_advance] an empty match
    is rejected and the matcher backtracks, as [re] does right after an
    empty match at the same position. *)
Definition match_here (r : regex) (must_advance : bool) (sn rs : list ascii) : option cursor :=
  run r (Cursor sn rs [])
    (fun cu => if must_advance && (length (rest cu) =? length rs) then None else Some cu).

(** [re.match(pattern, s)]: an attempt at the start of [s] only. *)
Definition re_match (r : regex) (s : string) : bool :=
  match match_here r false [] (chars s) with
  | Some _ => true
  | None => false
  end.

(** The text cut into unmatched characters and matches, left to right.
    [skip] counts the characters that still belong to the match found
    last; a new attempt is made where it reaches zero. *)
Inductive piece : Type :=
| Keep (a : ascii)
| Hit (start stop : cursor).

Definition width (rs : list ascii) (cu : cursor) : nat :=
  length rs - length (rest cu).

Fixpoint pieces (r : regex) (sn rs : list ascii) (skip : nat) : list piece :=
  match skip with
  | S n =>
      match rs with
      | a :: t => pieces r (a :: sn) t n
      | [] => []
      end
  | 0 =>
      let here := Cursor sn rs [] in
      match rs with
      | [] =>
          match match_here r false sn rs with
          | Some cu => [Hit here cu]
          | None => []
          end
      | a :: t =>
          match match_here r false sn rs with
          | None => Keep a :: pieces r (a :: sn) t 0
          | Some cu =>
              match width rs cu with
              | S n => Hit here cu :: pieces r (a :: sn) t n
              | 0 =>
                  Hit here cu ::
                  match match_here r true sn rs with
                  | Some cu' => Hit here cu' :: pieces r (a :: sn) t (width rs cu' - 1)
                  | None => Keep a :: pieces r (a :: sn) t 0
                  end
              end
          end
      end
  end.

(** [re.finditer(pattern, s)]: the matches, each with its groups. *)
Definition finditer (r : regex) (s : string) : list cursor :=
  omap (fun p => match p with Hit _ cu => Some cu | Keep _ => None end)
       (pieces r [] (chars s) 0).

Definition group (n : nat) (cu : cursor) : string :=
  match lookup_group n (groups cu) with
  | Some w => text w
  | None => EmptyString
  end.

(** [re.sub(pattern, repl, s)] for a replacement without backslash, which
    [re] inserts as it is. *)
Definition sub_chars (r : regex) (repl : list ascii) (l : list ascii) : list ascii :=
  concat (map (fun p => match p with Keep a => [a] | Hit _ _ => repl end)
              (pieces r [] l 0)).

Definition re_sub (r : regex) (repl : string) (s : string) : string :=
  text (sub_chars r (chars repl) (chars s)).

End Regex.

(** ** Python dictionaries

    A [dict] keeps its keys in insertion order; assigning to a key that is
    present replaces the value where the key stands, assigning to a new key
    appends it.  [items] is the iteration order. *)

Module PyDict.

Definition dict (V : Type) : Type := list (string * V).

Definition empty {V} : dict V := [].

Fixpoint get {V} (k : string) (d : dict V) : option V :=
  match d with
  | [] => None
  | (k', v) :: d' => if String.eqb k' k then Some v else get k d'
  end.

(** [d.get(k, default)]. *)
Definition get_default {V} (k : string) (default : V) (d : dict V) : V :=
  match get k d with
  | Some v => v
  | None => default
  end.

(** [k in d]. *)
Definition mem {V} (k : string) (d : dict V) : bool :=
  match get k d with
  | Some _ => true
  | None => false
  end.

(** [d[k] = v]. *)
Fixpoint set {V} (k : string) (v : V) (d : dict V) : dict V :=
  match d with
  | [] => [(k, v)]
  | (k', v') :: d' => if String.eqb k' k then (k', v) :: d' else (k', v') :: set k v d'
  end.

Definition items {V} (d : dict V) : list (string * V) := d.

Definition keys {V} (d : dict V) : list string := map fst d.

End PyDict.

(** ** Paths

    [pathlib.PurePosixPath]: the accessors [parts], [name] and [stem]. *)

Module PurePath.
Import Text.

Definition slash : ascii := "/"%char.
Definition dot : ascii := "."%char.

(** [s.split('/')]. *)
Fixpoint split_slash (l : list ascii) (cur : list ascii) : list (list ascii) :=
  match l with
  | [] => [rev cur]
  | a :: l' => if Ascii.eqb a slash then rev cur :: split_slash l' []
               else split_slash l' (a :: cur)
  end.

(** The root of a path: one slash, or two when the path starts with exactly
    two. *)
Definition root (l : list ascii) : option (list ascii) :=
  match l with
  | a :: b :: c :: _ =>
      if Ascii.eqb a slash then
        if Ascii.eqb b slash && negb (Ascii.eqb c slash) then Some [slash; slash]
        else Some [slash]
      else None
  | [a; b] =>
      if Ascii.eqb a slash then
        if Ascii.eqb b slash then Some [slash; slash] else Some [slash]
      else None
  | [a] => if Ascii.eqb a slash then Some [slash] else None
  | [] => None
  end.

Definition is_component (c : list ascii) : bool :=
  negb (match c with [] => true | _ => false end)
  && negb (match c with [a] => Ascii.eqb a dot | _ => false end).

(** The components after the root: empty ones and [.] are dropped. *)
Definition tail (l : list ascii) : list (list ascii) :=
  filter (fun c => is_component c = true) (split_slash l []).

Definition parts (p : string) : list string :=
  let l := chars p in
  match root l with
  | Some r => text r :: map text (tail l)
  | None => map text (tail l)
  end.

Definition name (p : string) : string :=
  match last (tail (chars p)) with
  | Some c => text c
  | None => EmptyString
  end.

(** [s.rfind('.')]. *)
Fixpoint rfind_dot (l : list ascii) (i : nat) : option nat :=
  match l with
  | [] => None
  | a :: l' =>
      match rfind_dot l' (S i) with
      | Some j => Some j
      | None => if Ascii.eqb a dot then Some i else None
      end
  end.

Definition stem (p : string) : string :=
  let n := chars (name p) in
  match rfind_dot n 0 with
  | Some i => if (0 <? i) && (i <? length n - 1) then text (take i n) else text n
  | None => text n
  end.

End PurePath.

(** ** The migrator *)

Module Migrator.
Import Text Regex PyDict.

Definition newline : string := String (ascii_of_nat 10) EmptyString.

Definition nonempty (s : string) : bool :=
  match s with
  | EmptyString => false
  | String _ _ => true
  end.

Record MigrationConfig : Type := {
  source_dir : string;
  target_dir : string;
  new_base_template : string;
  exclude_patterns : list regex;     (* the patterns, compiled *)
  auto_preserve_blocks : bool;
  auto_map_variables : bool
}.

(** The dictionary [_extract_template_info] returns. *)
Record template_info : Type := {
  variables : list string;
  blocks : list string;
  extends : option string;
  includes : list string;
  source : string
}.

Record log_entry : Type := {
  log_source : string;
  log_target : string;
  log_variables : list string;
  log_blocks : list string
}.

(** The attributes of a [JinjaMigrator] object. *)
Record JinjaMigrator : Type := {
  config : MigrationConfig;
  migration_log : list log_entry;
  template_mappings : dict string;
  variable_mappings : dict string;
  block_mappings : dict string;
  discovered_variables : gset string;
  discovered_blocks : gset string
}.

Definition with_template_mappings (m : dict string) (self : JinjaMigrator) : JinjaMigrator :=
  {| config := config self; migration_log := migration_log self;
     template_mappings := m;
     variable_mappings := variable_mappings self;
     block_mappings := block_mappings self;
     discovered_variables := discovered_variables self;
     discovered_blocks := discovered_blocks self |}.

Definition with_variable_mappings (m : dict string) (self : JinjaMigrator) : JinjaMigrator :=
  {| config := config self; migration_log := migration_log self;
     template_mappings := template_mappings self;
     variable_mappings := m;
     block_mappings := block_mappings self;
     discovered_variables := discovered_variables self;
     discovered_blocks := discovered_blocks self |}.

Definition with_block_mappings (m : dict string) (self : JinjaMigrator) : JinjaMigrator :=
  {| config := config self; migration_log := migration_log self;
     template_mappings := template_mappings self;
     variable_mappings := variable_mappings self;
     block_mappings := m;
     discovered_variables := discovered_variables self;
     discovered_blocks := discovered_blocks self |}.

Definition with_discovered (vs bs : gset string) (self : JinjaMigrator) : JinjaMigrator :=
  {| config := config self; migration_log := migration_log self;
     template_mappings := template_mappings self;
     variable_mappings := variable_mappings self;
     block_mappings := block_mappings self;
     discovered_variables := vs;
     discovered_blocks := bs |}.

Definition with_log (l : list log_entry) (self : JinjaMigrator) : JinjaMigrator :=
  {| config := config self; migration_log := l;
     template_mappings := template_mappings self;
     variable_mappings := variable_mappings self;
     block_mappings := block_mappings self;
     discovered_variables := discovered_variables self;
     discovered_blocks := discovered_blocks self |}.

(** [JinjaMigrator(config_path)] once the configuration is loaded. *)
Definition init (cfg : MigrationConfig) : JinjaMigrator :=
  {| config := cfg; migration_log := [];
     template_mappings := empty; variable_mappings := empty; block_mappings := empty;
     discovered_variables := ∅; discovered_blocks := ∅ |}.

(** The configuration [create_sample_config] writes: the patterns are
    [.*_backup\.html$] and [temp_.*\.html$]. *)
Definition not_newline : cclass := NotChar (ascii_of_nat 10).

Definition sample_config : MigrationConfig :=
  {| source_dir := "./templates";
     target_dir := "./new_templates";
     new_base_template := "base.html";
     exclude_patterns :=
       [ cat_all [Star not_newline true; escape "_backup.html"; Dollar];
         cat_all [escape "temp_"; Star not_newline true; escape ".html"; Dollar] ];
     auto_preserve_blocks := true;
     auto_map_variables := false |}.

(** *** Exceptions

    A method returns a value, or an exception leaves it. *)

Inductive exception : Type :=
| AttributeError.

Inductive result (A : Type) : Type :=
| Returned (a : A)
| Raised (e : exception).

Arguments Returned {A} a.
Arguments Raised {A} e.

(** *** What surrounds the migrator

    The source tree as the Jinja environment presents it, the operator at
    the prompt and the target file system.  [get_template] raises a
    [TemplateError] for a template that cannot be found, loaded or parsed,
    which is [None] here, and returns a [jinja2.Template] otherwise.  The
    source tree is read only: the run writes under the target directory,
    which is taken to be another directory. *)

(** A [jinja2.Template]: the compiled template under its name.  The object
    does not keep the text it was compiled from: the class has no attribute
    [source]. *)
Record Template : Type := {
  template_name : string
}.

(** The answer to the prompt of [_interactive_template_mapping]: choices 1,
    2, 3 (with the path then entered) and any other number. *)
Inductive choice : Type :=
| KeepPath
| UseSuggested
| CustomPath (p : string)
| SkipTemplate.

Record environment : Type := {
  loader : string -> option Template;   (* [source_env.get_template] *)
  operator : nat -> choice;          (* the answer to the n-th prompt *)
  writable : string -> bool          (* creating and writing the file succeeds *)
}.

(** The part of the world the run changes: the files written under the
    target directory, by target path, and the number of prompts answered. *)
Record world : Type := {
  target_files : dict string;
  prompts : nat
}.

(** *** Methods *)

Definition _should_exclude (self : JinjaMigrator) (template_path : string) : bool :=
  existsb (fun pattern => re_match pattern template_path)
          (exclude_patterns (config self)).

(** [_extract_template_info] (lines 70-112): the dictionary returned, with
    [None] for the empty one, or the exception that leaves the method, and
    the migrator afterwards.  A [TemplateError] of [get_template] is caught
    by the handler of the method, which returns the empty dictionary.  For
    a template that loads, the next statement (line 74) reads
    [template.source]; the [AttributeError] it raises is not a
    [TemplateError], so the handler does not catch it and it leaves the
    method with the migrator as it was.  The statements after line 74 (the
    parse, the search for blocks, extends and includes, the update of the
    discovered sets and the dictionary with the five keys) are not
    reached. *)
Definition _extract_template_info (env : environment) (template_path : string)
    (self : JinjaMigrator) : result (option template_info) * JinjaMigrator :=
  match loader env template_path with
  | None => (Returned None, self)
  | Some template => (Raised AttributeError, self)     (* [template.source] *)
  end.

Definition _suggest_template_path (template_path : string) : string :=
  if (length (PurePath.parts template_path) =? 1)
     && negb (String.eqb (PurePath.stem template_path) "base")
  then "pages/" +:+ template_path
  else if contains "admin" (lower template_path)
  then "admin/" +:+ PurePath.name template_path
  else if contains "user" (lower template_path)
  then "user/" +:+ PurePath.name template_path
  else template_path.

Definition _interactive_template_mapping (env : environment) (template_path : string)
    (self : JinjaMigrator) (w : world) : option string * JinjaMigrator * world :=
  match get template_path (template_mappings self) with
  | Some p => (Some p, self, w)
  | None =>
      let suggested_path := _suggest_template_path template_path in
      let w' := {| target_files := target_files w; prompts := S (prompts w) |} in
      let chosen :=
        match operator env (prompts w) with
        | KeepPath => Some template_path
        | UseSuggested => Some suggested_path
        | CustomPath p => Some p
        | SkipTemplate => None
        end in
      match chosen with
      | Some new_path =>
          (Some new_path,
           with_template_mappings (set template_path new_path (template_mappings self)) self,
           w')
      | None => (None, self, w')
      end
  end.

Definition auto_mappings : dict string :=
  [("user_name", "username");
   ("user_email", "email");
   ("page_title", "title");
   ("current_user", "user");
   ("nav_items", "navigation")].

Definition _auto_map_variables (self : JinjaMigrator) : JinjaMigrator :=
  fold_left
    (fun s '(old_var, new_var) =>
       if bool_decide (old_var ∈ discovered_variables s)
       then with_variable_mappings (set old_var new_var (variable_mappings s)) s
       else s)
    (items auto_mappings) self.

Definition sorted (s : gset string) : list string :=
  merge_sort String.le (elements s).

(** The operator's part of [_interactive_variable_mapping]: whether any
    variable is to be renamed, and the name entered for each. *)
Definition _interactive_variable_mapping (confirm : bool) (answer : string -> string)
    (self : JinjaMigrator) : JinjaMigrator :=
  if bool_decide (discovered_variables self = ∅) || auto_map_variables (config self)
  then if auto_map_variables (config self) then _auto_map_variables self else self
  else if negb confirm then self
  else fold_left
         (fun s var =>
            let new_name := answer var in
            if nonempty new_name && negb (String.eqb new_name var)
            then with_variable_mappings (set var new_name (variable_mappings s)) s
            else s)
         (sorted (discovered_variables self)) self.

Definition auto_block_mappings : dict string :=
  [("content", "main_content");
   ("sidebar", "aside_content");
   ("page_scripts", "scripts");
   ("page_styles", "styles")].

(** The automatic part of [_interactive_block_mapping]. *)
Definition auto_map_blocks (self : JinjaMigrator) : JinjaMigrator :=
  fold_left
    (fun s '(old_block, new_block) =>
       if bool_decide (old_block ∈ discovered_blocks s)
       then with_block_mappings (set old_block new_block (block_mappings s)) s
       else s)
    (items auto_block_mappings) self.

(** [answer block current] is what the operator enters for [block] when the
    prompt offers [current]. *)
Definition _interactive_block_mapping (confirm : bool) (answer : string -> string -> string)
    (self : JinjaMigrator) : JinjaMigrator :=
  if bool_decide (discovered_blocks self = ∅) then self
  else
    let self1 := if auto_preserve_blocks (config self) then auto_map_blocks self else self in
    if negb confirm then self1
    else fold_left
           (fun s block =>
              let current_mapping := get_default block block (block_mappings s) in
              let new_name := answer block current_mapping in
              if negb (String.eqb new_name block)
              then with_block_mappings (set block new_name (block_mappings s)) s
              else s)
           (sorted (discovered_blocks self1)) self1.

Definition lit (s : string) : regex := escape s.

(** The pattern [{%\s*block\s+(\w+)\s*%}(.*?){%\s*endblock\s*(?:\s+\1)?\s*%}],
    compiled with [re.DOTALL]: the opening directive, the content and the
    closing directive. *)
Definition block_open : list regex :=
  [ lit "{%"; Star Space true; lit "block"; Plus Space true;
    Group 1 (Plus Word true); Star Space true; lit "%}" ].

Definition block_close : list regex :=
  [ lit "{%"; Star Space true; lit "endblock"; Star Space true;
    Opt (Cat (Plus Space true) (Backref 1)); Star Space true; lit "%}" ].

Definition block_pattern : regex :=
  cat_all (block_open ++ [Group 2 (Star AnyChar false)] ++ block_close).

Definition _extract_blocks_content (source : string) : dict string :=
  fold_left
    (fun blocks m => set (group 1 m) (strip (group 2 m)) blocks)
    (finditer block_pattern source) empty.

(** The three patterns built for one variable [v]: [\bv\b], [{\s*v\s*}]
    (the doubled braces of the f-string are single braces in the pattern)
    and [{% [^%]*\bv\b[^%]*%}].  [old] holds the characters of [v], which
    [re.escape] makes literal. *)
Definition whole_word (old : list ascii) : regex :=
  cat_all [Boundary; lit_chars old; Boundary].

Definition in_braces (old : list ascii) : regex :=
  cat_all [lit "{"; Star Space true; lit_chars old; Star Space true; lit "}"].

Definition in_directive (old : list ascii) : regex :=
  cat_all [lit "{% "; Star (NotChar "%") true; Boundary; lit_chars old; Boundary;
           Star (NotChar "%") true; lit "%}"].

Definition variable_patterns (old_var : string) : list regex :=
  [ whole_word (chars old_var); in_braces (chars old_var); in_directive (chars old_var) ].

Definition _apply_variable_mappings (self : JinjaMigrator) (content : string) : string :=
  fold_left
    (fun content '(old_var, new_var) =>
       fold_left (fun content pattern => re_sub pattern new_var content)
                 (variable_patterns old_var) content)
    (items (variable_mappings self)) content.

(** [str(d)] for a dictionary of strings. *)
Definition repr_dict (d : dict string) : string :=
  "{" +:+ join ", " (map (fun '(k, v) => repr_str k +:+ ": " +:+ repr_str v) (items d)) +:+ "}".

Definition header_lines (self : JinjaMigrator) : list string :=
  let base := new_base_template (config self) in
  if nonempty base then ["{% extends '" +:+ base +:+ "' %}"; EmptyString] else [].

Definition block_lines (self : JinjaMigrator) (original_blocks : dict string) : list string :=
  flat_map
    (fun '(block_name, block_content) =>
       let new_block_name := get_default block_name block_name (block_mappings self) in
       [ "{% block " +:+ new_block_name +:+ " %}";
         _apply_variable_mappings self block_content;
         "{% endblock %}";
         EmptyString ])
    (items original_blocks).

Definition comment_lines (self : JinjaMigrator) (info : template_info)
    (template_path : string) : list string :=
  [ "<!-- Migrated template -->";
    "<!-- Original: " +:+ template_path +:+ " -->";
    "<!-- Variables: " +:+ join ", " (variables info) +:+ " -->" ]
  ++ match variable_mappings self with
     | [] => []
     | _ :: _ => ["<!-- Variable mappings: " +:+ repr_dict (variable_mappings self) +:+ " -->"]
     end.

Definition _generate_new_template (self : JinjaMigrator) (info : template_info)
    (template_path : string) : string :=
  join newline
    (header_lines self
     ++ block_lines self (_extract_blocks_content (source info))
     ++ comment_lines self info template_path).

(** [migrate_template]: the result and the migrator and world it leaves.
    The body is one [try] block whose handler catches every [Exception] and
    returns [False]: that is where an exception raised by
    [_extract_template_info] ends, and where a target that cannot be
    created or written does. *)
Definition migrate_template (env : environment) (template_path : string)
    (self : JinjaMigrator) (w : world) : bool * JinjaMigrator * world :=
  if _should_exclude self template_path then (true, self, w)
  else
    match _interactive_template_mapping env template_path self w with
    | (None, self1, w1) => (true, self1, w1)
    | (Some target_path, self1, w1) =>
        match _extract_template_info env template_path self1 with
        | (Raised _, self2) => (false, self2, w1)
        | (Returned None, self2) => (false, self2, w1)
        | (Returned (Some info), self2) =>
            let new_content := _generate_new_template self2 info template_path in
            if writable env target_path then
              (true,
               with_log (migration_log self2 ++
                         [{| log_source := template_path; log_target := target_path;
                             log_variables := variables info; log_blocks := blocks info |}])
                        self2,
               {| target_files := set target_path new_content (target_files w1);
                  prompts := prompts w1 |})
            else (false, self2, w1)
        end
    end.

(** The migration loop of [main] and its two counters. *)
Record tally : Type := {
  successful : nat;
  failed : nat
}.

(** With [--auto] the loop assigns the suggested target path before it
    migrates a template. *)
Definition preset (auto : bool) (template_path : string) (self : JinjaMigrator) : JinjaMigrator :=
  if auto
  then with_template_mappings
         (set template_path (_suggest_template_path template_path)
              (template_mappings self)) self
  else self.

Fixpoint migrate_all (env : environment) (auto : bool) (templates_to_migrate : list string)
    (self : JinjaMigrator) (w : world) (t : tally) : tally * JinjaMigrator * world :=
  match templates_to_migrate with
  | [] => (t, self, w)
  | template_path :: more =>
      let self0 := preset auto template_path self in
      match migrate_template env template_path self0 w with
      | (true, self1, w1) =>
          migrate_all env auto more self1 w1
            {| successful := S (successful t); failed := failed t |}
      | (false, self1, w1) =>
          migrate_all env auto more self1 w1
            {| successful := successful t; failed := S (failed t) |}
      end
  end.

Definition run_migration (env : environment) (auto : bool) (templates_to_migrate : list string)
    (self : JinjaMigrator) (w : world) : tally * JinjaMigrator * world :=
  migrate_all env auto templates_to_migrate self w {| successful := 0; failed := 0 |}.

(** *** Notions the statements below are phrased with *)

(** One step of either pass: the built-in entry is written when its key has
    been discovered. *)
Definition fill (discovered : gset string) (m : dict string) (entry : string * string) : dict string :=
  if bool_decide (fst entry ∈ discovered) then set (fst entry) (snd entry) m else m.

(** The first rule of the path suggestion applies: the path has one part
    and its stem is not [base]. *)
Definition in_root_not_base (template_path : string) : Prop :=
  length (PurePath.parts template_path) = 1 /\ PurePath.stem template_path <> "base".


(** The template left the pipeline before rewriting: excluded by a pattern,
    or skipped by the operator. *)
Definition routed_away (env : environment) (template_path : string)
    (self : JinjaMigrator) (w : world) : bool :=
  _should_exclude self template_path
  || match _interactive_template_mapping env template_path self w with
     | (None, _, _) => true
     | (Some _, _, _) => false
     end.

(** The ways through [migrate_template] that can be taken, each with the
    result, the migrator and the world it ends in: the template is excluded,
    it is skipped by the operator, it cannot be loaded, or it is loaded and
    its text cannot be read. *)
Inductive outcome (env : environment) (template_path : string)
    (self : JinjaMigrator) (w : world) : bool * JinjaMigrator * world -> Prop :=
| Excluded :
    _should_exclude self template_path = true ->
    outcome env template_path self w (true, self, w)
| Skipped self1 w1 :
    _should_exclude self template_path = false ->
    _interactive_template_mapping env template_path self w = (None, self1, w1) ->
    outcome env template_path self w (true, self1, w1)
| NotLoaded target_path self1 w1 :
    _should_exclude self template_path = false ->
    _interactive_template_mapping env template_path self w = (Some target_path, self1, w1) ->
    loader env template_path = None ->
    outcome env template_path self w (false, self1, w1)
| NotRead target_path self1 w1 template :
    _should_exclude self template_path = false ->
    _interactive_template_mapping env template_path self w = (Some target_path, self1, w1) ->
    loader env template_path = Some template ->
    outcome env template_path self w (false, self1, w1).

(** What the rewriting of a batch reads and never changes. *)
Definition same_setup (self self' : JinjaMigrator) : Prop :=
  config self' = config self
  /\ variable_mappings self' = variable_mappings self
  /\ block_mappings self' = block_mappings self.

(** How many templates of a batch are routed away, each looked at in the
    state the loop has reached when its turn comes. *)
Fixpoint count_routed_away (env : environment) (auto : bool) (templates : list string)
    (self : JinjaMigrator) (w : world) : nat :=
  match templates with
  | [] => 0
  | template_path :: more =>
      let self0 := preset auto template_path self in
      (if routed_away env template_path self0 w then 1 else 0)
      + match migrate_template env template_path self0 w with
        | (_, self1, w1) => count_routed_away env auto more self1 w1
        end
  end.

(** Word-wise renaming: the text is read as maximal runs of word characters
    separated by other characters; a run equal to [old] becomes [new], all
    else stays.  [run] holds the word being read, latest character first,
    and [written] is what is put out for it when it ends. *)
Definition flush (old new : list ascii) (run : list ascii) : list ascii :=
  if bool_decide (rev run = old) then new else rev run.

Definition written (old new : list ascii) (run : list ascii) : list ascii :=
  match run with
  | [] => []
  | _ :: _ => flush old new run
  end.

Fixpoint rename_runs (old new : list ascii) (run : list ascii) (l : list ascii) : list ascii :=
  match l with
  | [] => written old new run
  | a :: l' =>
      if is_word a then rename_runs old new (a :: run) l'
      else written old new run ++ a :: rename_runs old new [] l'
  end.

Definition rename_words (old new : string) (content : string) : string :=
  text (rename_runs (chars old) (chars new) [] (chars content)).

(** [old] stands as a whole word at the cursor: no word character before
    it, [old] ahead, no word character after it. *)
Definition word_here (old : list ascii) (sn rs : list ascii) : bool :=
  negb (first_word sn)
  && match strip_prefix old rs with
     | Some rs' => negb (first_word rs')
     | None => false
     end.

(** [old] stands as a whole word nowhere in [rs], which follows [sn]. *)
Fixpoint no_whole_word (old : list ascii) (sn rs : list ascii) : bool :=
  negb (word_here old sn rs)
  && match rs with
     | [] => true
     | a :: t => no_whole_word old (a :: sn) t
     end.

(** The word characters a text starts with, and what follows them. *)
Fixpoint span_word (l : list ascii) : list ascii * list ascii :=
  match l with
  | a :: t => if is_word a then (a :: fst (span_word t), snd (span_word t)) else ([], l)
  | [] => ([], [])
  end.

(** The text does not end, or does not start, in the middle of a word. *)
Definition ends_outside_word (s : string) : bool :=
  negb (first_word (rev (chars s))).

Definition starts_outside_word (s : string) : bool :=
  negb (first_word (chars s)).

(** The text a list of pieces stands for once a match is replaced. *)
Definition emit (repl : list ascii) (ps : list piece) : list ascii :=
  concat (map (fun p => match p with Keep a => [a] | Hit _ _ => repl end) ps).

End Migrator.

(** ** Sample templates and stores *)

Module Samples.
Import Text Regex PyDict Migrator.

(** The source tree of a run: the paths of the templates that
    [get_template] can load. *)
Definition tree_loader (tree : list string) (template_path : string) : option Template :=
  if bool_decide (template_path ∈ tree)
  then Some {| template_name := template_path |}
  else None.

(** An environment in which the operator accepts every suggestion and every
    target can be written. *)
Definition unattended (tree : list string) : environment :=
  {| loader := tree_loader tree;
     operator := fun _ => UseSuggested;
     writable := fun _ => true |}.

Definition fresh_world : world := {| target_files := empty; prompts := 0 |}.

Definition without_base : MigrationConfig :=
  {| source_dir := source_dir sample_config;
     target_dir := target_dir sample_config;
     new_base_template := EmptyString;
     exclude_patterns := exclude_patterns sample_config;
     auto_preserve_blocks := auto_preserve_blocks sample_config;
     auto_map_variables := auto_map_variables sample_config |}.

(** The facts of a template in which a block [b] stands inside a block
    [a]: the text and the blocks the Jinja parser finds in it. *)
Definition nested_facts : template_info :=
  {| variables := [];
     blocks := ["a"; "b"];
     extends := None;
     includes := [];
     source := "{% block a %}{% block b %}x{% endblock %}{% endblock %}" |}.

(** The facts of a template whose one block is written with whitespace
    control. *)
Definition trimmed_facts : template_info :=
  {| variables := [];
     blocks := ["a"];
     extends := None;
     includes := [];
     source := "{%- block a -%}x{%- endblock -%}" |}.



(** A page without directives. *)
Definition greeting_facts : template_info :=
  {| variables := ["user_name"];
     blocks := [];
     extends := None;
     includes := [];
     source := "<p>Hello {{ user_name }}</p>" |}.

(** A control directive that mentions a renamed and an unmapped variable. *)
Definition guarded_heading : string :=
  "{% if title and role %}<h1>{{ title }}</h1>{% endif %}".

(** The facts of a template with one block around that content. *)
Definition guarded_page : template_info :=
  {| variables := ["title"; "role"];
     blocks := ["content"];
     extends := None;
     includes := [];
     source := "{% block content %}" +:+ guarded_heading +:+ "{% endblock %}" |}.

Definition title_under_page : JinjaMigrator :=
  with_variable_mappings [("title", "page.title")] (init sample_config).

(** Directives in a text, counted by their opening words. *)
Definition block_opens (s : string) : nat := count "{% block " s.
Definition block_closes (s : string) : nat := count "{% endblock" s.
Definition extends_directives (s : string) : nat := count "{% extends " s.

(** A migrator in which the operator has already mapped [user_name] and
    [content], both of which have been discovered. *)
Definition with_overrides : JinjaMigrator :=
  with_discovered {[ "user_name" ]} {[ "content" ]}
    (with_variable_mappings [("user_name", "login")]
       (with_block_mappings [("content", "body")] (init sample_config))).

(** A migrator whose variable mapping is [m]. *)
Definition with_variables (m : dict string) : JinjaMigrator :=
  with_variable_mappings m (init sample_config).

(** A migrator configured for automatic variable mapping in which
    [user_name] has been discovered. *)
Definition with_auto_variables : JinjaMigrator :=
  with_discovered {[ "user_name" ]} ∅
    (init {| source_dir := source_dir sample_config;
             target_dir := target_dir sample_config;
             new_base_template := new_base_template sample_config;
             exclude_patterns := exclude_patterns sample_config;
             auto_preserve_blocks := auto_preserve_blocks sample_config;
             auto_map_variables := true |}).

(** An operator who skips every template. *)
Definition reluctant (tree : list string) : environment :=
  {| loader := tree_loader tree;
     operator := fun _ => SkipTemplate;
     writable := fun _ => true |}.

(** Three templates of which the second, [broken.html], does not parse. *)
Definition two_of_three : list string := ["first.html"; "third.html"].

Definition batch_of_three : list string := ["first.html"; "broken.html"; "third.html"].

End Samples.

(** ** Analysis and mapping resolution *)

Module Orchestrator.
Import Text Regex PyDict Migrator.

(** [analyze_all_templates] (lines 311-319): [_extract_template_info] is
    called for every template that is not excluded and what it returns is
    dropped.  The loop is under no [try]: an exception of
    [_extract_template_info] ends it and leaves the method. *)
Fixpoint analyze_all_templates (env : environment) (templates : list string)
    (self : JinjaMigrator) : result unit * JinjaMigrator :=
  match templates with
  | [] => (Returned tt, self)
  | template_path :: more =>
      if _should_exclude self template_path
      then analyze_all_templates env more self
      else
        match _extract_template_info env template_path self with
        | (Returned _, self1) => analyze_all_templates env more self1
        | (Raised e, self1) => (Raised e, self1)
        end
  end.

(** [configure_mappings_interactively]: variables first, then blocks. *)
Definition configure_mappings_interactively
    (confirm_variables : bool) (variable_answer : string -> string)
    (confirm_blocks : bool) (block_answer : string -> string -> string)
    (self : JinjaMigrator) : JinjaMigrator :=
  _interactive_block_mapping confirm_blocks block_answer
    (_interactive_variable_mapping confirm_variables variable_answer self).

(** The mapping step of [main]: interactive configuration, or with
    [--auto] the automatic variable pass followed, when automatic block
    mapping is configured, by [_interactive_block_mapping]. *)
Definition resolve_mappings (auto : bool)
    (confirm_variables : bool) (variable_answer : string -> string)
    (confirm_blocks : bool) (block_answer : string -> string -> string)
    (self : JinjaMigrator) : JinjaMigrator :=
  if negb auto
  then configure_mappings_interactively confirm_variables variable_answer
         confirm_blocks block_answer self
  else
    let self1 := _auto_map_variables self in
    if auto_preserve_blocks (config self1)
    then _interactive_block_mapping confirm_blocks block_answer self1
    else self1.

(** *** Notions the statements about the passes are phrased with *)

(** The operator's entry for a variable is taken when it is not empty and
    not the variable's own name. *)
Definition renamed (answer : string -> string) (var : string) : bool :=
  nonempty (answer var) && negb (String.eqb (answer var) var).

Definition rename_step (answer : string -> string) (m : dict string) (var : string)
    : dict string :=
  if renamed answer var then set var (answer var) m else m.

(** What [_interactive_block_mapping] does with the operator's entry for
    one block. *)
Definition customise_step (answer : string -> string -> string) (m : dict string)
    (block : string) : dict string :=
  let new_name := answer block (get_default block block m) in
  if negb (String.eqb new_name block) then set block new_name m else m.

(** The variable mapping and the block mapping the mapping step of [main]
    ends with, each as a function of what its own pass reads. *)
Definition variable_pass (auto confirm : bool) (answer : string -> string)
    (auto_variables : bool) (discovered : gset string) (m : dict string) : dict string :=
  if auto || auto_variables then fold_left (fill discovered) auto_mappings m
  else if bool_decide (discovered = ∅) || negb confirm then m
  else fold_left (rename_step answer) (sorted discovered) m.

Definition block_pass (auto confirm : bool) (answer : string -> string -> string)
    (auto_blocks : bool) (discovered : gset string) (m : dict string) : dict string :=
  if (auto && negb auto_blocks) || bool_decide (discovered = ∅) then m
  else
    let m1 := if auto_blocks then fold_left (fill discovered) auto_block_mappings m else m in
    if negb confirm then m1 else fold_left (customise_step answer) (sorted discovered) m1.

(** The text begins with a whitespace character. *)
Definition starts_with_space (l : list ascii) : bool :=
  match l with
  | a :: _ => is_space a
  | [] => false
  end.

(** Assigning a list of entries one after the other. *)
Definition assign_all {V} (d : dict V) (kvs : list (string * V)) : dict V :=
  fold_left (fun d kv => set (fst kv) (snd kv) d) kvs d.

(** The name and the stripped content of each match of the block pattern,
    in order. *)
Definition matched_blocks (source : string) : list (string * string) :=
  map (fun m => (group 1 m, strip (group 2 m))) (finditer block_pattern source).

(** A name made of word characters, and a renaming of one such name to a
    different one. *)
Definition identifier (s : string) : Prop :=
  chars s <> [] /\ Forall (fun a => is_word a = true) (chars s).

Definition renaming (kv : string * string) : Prop :=
  identifier (fst kv) /\ identifier (snd kv) /\ snd kv <> fst kv.

(** A text with every maximal run of word characters replaced by its image
    under [f]; [run] holds the word being read, latest character first. *)
Definition image (f : list ascii -> list ascii) (run : list ascii) : list ascii :=
  match run with
  | [] => []
  | _ :: _ => f (rev run)
  end.

Fixpoint map_runs (f : list ascii -> list ascii) (run : list ascii) (l : list ascii)
    : list ascii :=
  match l with
  | [] => image f run
  | a :: l' =>
      if is_word a then map_runs f (a :: run) l'
      else image f run ++ a :: map_runs f [] l'
  end.

Definition map_words (f : string -> string) (content : string) : string :=
  text (map_runs (fun u => chars (f (text u))) [] (chars content)).

(** A text without a newline, and what [$] accepts after a match: the end
    of the text, or one newline that ends it. *)
Definition one_line (body : list ascii) : Prop :=
  Forall (fun a => a <> ascii_of_nat 10) body.

Definition line_end (tail : list ascii) : Prop :=
  tail = [] \/ tail = [ascii_of_nat 10].

(** The paths the two patterns of the sample configuration describe. *)
Definition backup_path (l : list ascii) : Prop :=
  exists body tail,
    one_line body /\ line_end tail /\ l = body ++ chars "_backup.html" ++ tail.

Definition temp_path (l : list ascii) : Prop :=
  exists body tail,
    one_line body /\ line_end tail
    /\ l = chars "temp_" ++ body ++ chars ".html" ++ tail.

(** No new name of the mapping is itself a name the mapping renames. *)
Definition settled (mapping : dict string) : Prop :=
  forall kv, kv ∈ mapping -> mem (snd kv) mapping = false.

(** Everything but the variable mapping is the same. *)
Definition same_setup_but_variables (self self' : JinjaMigrator) : Prop :=
  config self' = config self
  /\ migration_log self' = migration_log self
  /\ template_mappings self' = template_mappings self
  /\ block_mappings self' = block_mappings self
  /\ discovered_variables self' = discovered_variables self
  /\ discovered_blocks self' = discovered_blocks self.

(** Everything but the block mapping is the same. *)
Definition same_setup_but_blocks (self self' : JinjaMigrator) : Prop :=
  config self' = config self
  /\ migration_log self' = migration_log self
  /\ template_mappings self' = template_mappings self
  /\ variable_mappings self' = variable_mappings self
  /\ discovered_variables self' = discovered_variables self
  /\ discovered_blocks self' = discovered_blocks self.

End Orchestrator.

(** * Properties *)

Import Text Regex PyDict Migrator Samples Orchestrator.

(** ** Target-path suggestion *)

Section SuggestTemplatePath.

Variable template_path : string.

Lemma first_rule_test :
  (length (PurePath.parts template_path) =? 1)
  && negb (String.eqb (PurePath.stem template_path) "base") = true
  <-> in_root_not_base template_path.
Proof.
  unfold in_root_not_base.
  rewrite andb_true_iff, Nat.eqb_eq, negb_true_iff, String.eqb_neq.
  reflexivity.
Qed.

Lemma suggest_pages :
  in_root_not_base template_path -> _suggest_template_path template_path = "pages/" +:+ template_path.
Proof.
  intros H. apply first_rule_test in H.
  unfold _suggest_template_path. now rewrite H.
Qed.

Lemma suggest_skips_pages :
  ~ in_root_not_base template_path ->
  _suggest_template_path template_path =
    if contains "admin" (lower template_path)
    then "admin/" +:+ PurePath.name template_path
    else if contains "user" (lower template_path)
    then "user/" +:+ PurePath.name template_path
    else template_path.
Proof.
  intros H. unfold _suggest_template_path.
  destruct ((length (PurePath.parts template_path) =? 1)
            && negb (String.eqb (PurePath.stem template_path) "base")) eqn:E.
  - exfalso. apply H. now apply first_rule_test.
  - reflexivity.
Qed.

End SuggestTemplatePath.

(** C6: the suggestion applies its rules in a fixed order and the first one
    that matches decides: a path with a single part whose stem is not [base]
    goes under [pages/]; otherwise a path containing [admin] (case ignored)
    goes under [admin/] with its file name; otherwise one containing [user]
    goes under [user/]; otherwise the path is returned as it is.  So
    [dashboard.html] becomes [pages/dashboard.html] and [admin/settings.html]
    stays [admin/settings.html]. *)
Theorem suggest_template_path_rule_order :
  (forall p, in_root_not_base p ->
             _suggest_template_path p = "pages/" +:+ p)
  /\ (forall p, ~ in_root_not_base p ->
                contains "admin" (lower p) = true ->
                _suggest_template_path p = "admin/" +:+ PurePath.name p)
  /\ (forall p, ~ in_root_not_base p ->
                contains "admin" (lower p) = false ->
                contains "user" (lower p) = true ->
                _suggest_template_path p = "user/" +:+ PurePath.name p)
  /\ (forall p, ~ in_root_not_base p ->
                contains "admin" (lower p) = false ->
                contains "user" (lower p) = false ->
                _suggest_template_path p = p)
  /\ _suggest_template_path "dashboard.html" = "pages/dashboard.html"
  /\ _suggest_template_path "admin/settings.html" = "admin/settings.html".
Proof.
  repeat split.
  - apply suggest_pages.
  - intros p H Ha. rewrite suggest_skips_pages by assumption. now rewrite Ha.
  - intros p H Ha Hu. rewrite suggest_skips_pages by assumption. now rewrite Ha, Hu.
  - intros p H Ha Hu. rewrite suggest_skips_pages by assumption. now rewrite Ha, Hu.
Qed.

Lemma suggest_template_path_rule_order_witness :
  _suggest_template_path "reports.html" = "pages/reports.html"
  /\ _suggest_template_path "site/AdminUsers.html" = "admin/AdminUsers.html"
  /\ _suggest_template_path "site/user_list.html" = "user/user_list.html"
  /\ _suggest_template_path "site/about.html" = "site/about.html".
Proof.
  destruct suggest_template_path_rule_order as (R1 & R2 & R3 & R4 & _).
  split; [| split; [| split]].
  - apply R1. split; [reflexivity | discriminate].
  - apply R2; [intros [H _]; discriminate H | reflexivity].
  - apply R3; [intros [H _]; discriminate H | reflexivity | reflexivity].
  - apply R4; [intros [H _]; discriminate H | reflexivity | reflexivity].
Defined.

(** C5 as stated does not hold: [profile_user.html] is not sent to
    [user/profile_user.html]. *)
Lemma profile_user_not_under_user :
  _suggest_template_path "profile_user.html" <> "user/profile_user.html".
Proof. vm_compute. discriminate. Qed.

(** C5, amended: [profile_user.html] has no directory part and is not the
    base template, so the first rule decides before the [user] rule is
    reached and the suggestion is [pages/profile_user.html]. *)
Theorem profile_user_goes_to_pages :
  in_root_not_base "profile_user.html"
  /\ contains "user" (lower "profile_user.html") = true
  /\ _suggest_template_path "profile_user.html" = "pages/profile_user.html".
Proof.
  split; [split; [reflexivity | discriminate] |].
  split; reflexivity.
Qed.

(** ** Dictionaries *)

Section DictFacts.

Context {V : Type}.
Implicit Types (d : dict V) (k : string) (v : V).

Lemma get_set d k k' v :
  get k (set k' v d) = if String.eqb k' k then Some v else get k d.
Proof.
  induction d as [| [k0 v0] d IH]; simpl.
  - reflexivity.
  - destruct (String.eqb k0 k') eqn:E0; simpl.
    + apply String.eqb_eq in E0. subst k0.
      destruct (String.eqb k' k); reflexivity.
    + destruct (String.eqb k0 k) eqn:E1.
      * apply String.eqb_eq in E1. subst k0. rewrite String.eqb_sym. now rewrite E0.
      * exact IH.
Qed.

Lemma get_set_eq d k v : get k (set k v d) = Some v.
Proof. rewrite get_set. now rewrite String.eqb_refl. Qed.

Lemma get_set_ne d k k' v : k' <> k -> get k (set k' v d) = get k d.
Proof.
  intros H. rewrite get_set.
  apply String.eqb_neq in H. now rewrite H.
Qed.

End DictFacts.

(** ** The automatic mapping passes *)

Lemma auto_map_variables_fold self :
  variable_mappings (_auto_map_variables self)
  = fold_left (fill (discovered_variables self)) auto_mappings (variable_mappings self)
  /\ discovered_variables (_auto_map_variables self) = discovered_variables self
  /\ block_mappings (_auto_map_variables self) = block_mappings self.
Proof.
  unfold _auto_map_variables, items.
  generalize auto_mappings as table. intros table. revert self.
  induction table as [| [old_var new_var] table IH]; intros self.
  - simpl. auto.
  - cbn [fold_left]. unfold fill at 2. cbn [fst snd].
    case_bool_decide.
    + destruct (IH (with_variable_mappings (set old_var new_var (variable_mappings self)) self))
        as (H1 & H2 & H3).
      rewrite H1, H2, H3. auto.
    + apply IH.
Qed.

Lemma auto_map_blocks_fold self :
  block_mappings (auto_map_blocks self)
  = fold_left (fill (discovered_blocks self)) auto_block_mappings (block_mappings self)
  /\ discovered_blocks (auto_map_blocks self) = discovered_blocks self
  /\ variable_mappings (auto_map_blocks self) = variable_mappings self.
Proof.
  unfold auto_map_blocks, items.
  generalize auto_block_mappings as table. intros table. revert self.
  induction table as [| [old_block new_block] table IH]; intros self.
  - simpl. auto.
  - cbn [fold_left]. unfold fill at 2. cbn [fst snd].
    case_bool_decide.
    + destruct (IH (with_block_mappings (set old_block new_block (block_mappings self)) self))
        as (H1 & H2 & H3).
      rewrite H1, H2, H3. auto.
    + apply IH.
Qed.

Lemma get_fill discovered m entry k :
  get k (fill discovered m entry)
  = if bool_decide (fst entry ∈ discovered) && String.eqb (fst entry) k
    then Some (snd entry) else get k m.
Proof.
  unfold fill. case_bool_decide; simpl; [apply get_set | reflexivity].
Qed.

(** A key outside the table is never touched by the fold. *)
Lemma get_fold_fill_absent discovered table m k :
  get k table = None ->
  get k (fold_left (fill discovered) table m) = get k m.
Proof.
  revert m. induction table as [| [k0 v0] table IH]; intros m H; simpl in *.
  - reflexivity.
  - destruct (String.eqb k0 k) eqn:E; [discriminate |].
    rewrite IH by assumption. rewrite get_fill. simpl.
    rewrite E. now rewrite andb_false_r.
Qed.

(** A key that has not been discovered is never touched either. *)
Lemma get_fold_fill_undiscovered discovered table m k :
  k ∉ discovered ->
  get k (fold_left (fill discovered) table m) = get k m.
Proof.
  revert m. induction table as [| [k0 v0] table IH]; intros m H; simpl.
  - reflexivity.
  - rewrite IH by assumption. rewrite get_fill. simpl.
    destruct (String.eqb k0 k) eqn:E.
    + apply String.eqb_eq in E. subst k0.
      rewrite bool_decide_eq_false_2 by assumption. reflexivity.
    + now rewrite andb_false_r.
Qed.

(** A discovered key of a table without repeated keys ends with the table's
    value. *)
Lemma get_fold_fill_discovered discovered table m k v :
  NoDup (keys table) ->
  k ∈ discovered ->
  get k table = Some v ->
  get k (fold_left (fill discovered) table m) = Some v.
Proof.
  revert m. induction table as [| [k0 v0] table IH]; intros m Hnd Hin H; simpl in *.
  - discriminate.
  - apply NoDup_cons in Hnd as [Hk0 Hnd].
    destruct (String.eqb k0 k) eqn:E.
    + apply String.eqb_eq in E. subst k0. injection H as ->.
      rewrite get_fold_fill_absent.
      * rewrite get_fill. simpl.
        rewrite bool_decide_eq_true_2 by assumption.
        now rewrite String.eqb_refl.
      * clear -Hk0. unfold keys in Hk0.
        induction table as [| [k1 v1] table IH]; simpl in *; [reflexivity |].
        apply not_elem_of_cons in Hk0 as [Hne Hk0].
        destruct (String.eqb k1 k) eqn:E1.
        -- apply String.eqb_eq in E1. congruence.
        -- auto.
    + apply IH; assumption.
Qed.

Lemma auto_mappings_keys_distinct : NoDup (keys auto_mappings).
Proof. apply (bool_decide_unpack _). vm_compute. exact I. Qed.

Lemma auto_block_mappings_keys_distinct : NoDup (keys auto_block_mappings).
Proof. apply (bool_decide_unpack _). vm_compute. exact I. Qed.

(** When the operator declines to customise, [_interactive_block_mapping]
    is the automatic block pass. *)
Lemma interactive_block_mapping_declined answer self :
  auto_preserve_blocks (config self) = true ->
  _interactive_block_mapping false answer self
  = if bool_decide (discovered_blocks self = ∅) then self else auto_map_blocks self.
Proof.
  intros H. unfold _interactive_block_mapping.
  case_bool_decide; [reflexivity |]. now rewrite H.
Qed.

(** C2 as stated does not hold: the automatic passes replace a mapping the
    store already has. *)
Lemma auto_pass_overwrites_existing :
  ~ (forall self k v,
       get k (variable_mappings self) = Some v ->
       get k (variable_mappings (_auto_map_variables self)) = Some v)
  /\ ~ (forall self answer k v,
          auto_preserve_blocks (config self) = true ->
          get k (block_mappings self) = Some v ->
          get k (block_mappings (_interactive_block_mapping false answer self)) = Some v).
Proof.
  split; intros H.
  - specialize (H with_overrides "user_name" "login" eq_refl).
    vm_compute in H. discriminate H.
  - specialize (H with_overrides (fun _ current => current) "content" "body" eq_refl eq_refl).
    vm_compute in H. discriminate H.
Qed.

(** C2, amended: an automatic pass assigns to every key of its built-in
    table that is among the discovered names the value of the table, whether
    or not the key was mapped before, and changes nothing else.  A key that
    maps to [v] therefore still maps to [v] afterwards when it is not in the
    table or has not been discovered; a discovered key of the table maps to
    the table's value.  This holds for the variable pass, whatever the
    configuration, and for the block pass, which is
    [_interactive_block_mapping] with automatic block mapping configured and
    no customisation by the operator. *)
Theorem auto_pass_sets_discovered_defaults self answer k :
  ((get k auto_mappings = None \/ k ∉ discovered_variables self) ->
     get k (variable_mappings (_auto_map_variables self)) = get k (variable_mappings self))
  /\ (forall d, get k auto_mappings = Some d -> k ∈ discovered_variables self ->
        get k (variable_mappings (_auto_map_variables self)) = Some d)
  /\ (auto_preserve_blocks (config self) = true ->
      ((get k auto_block_mappings = None \/ k ∉ discovered_blocks self) ->
         get k (block_mappings (_interactive_block_mapping false answer self))
         = get k (block_mappings self))
      /\ (forall d, get k auto_block_mappings = Some d -> k ∈ discovered_blocks self ->
            get k (block_mappings (_interactive_block_mapping false answer self)) = Some d)).
Proof.
  destruct (auto_map_variables_fold self) as (Hv & _).
  destruct (auto_map_blocks_fold self) as (Hb & _).
  rewrite Hv. split; [| split].
  - intros [H | H]; [now apply get_fold_fill_absent | now apply get_fold_fill_undiscovered].
  - intros d Hd Hin.
    apply get_fold_fill_discovered; auto using auto_mappings_keys_distinct.
  - intros Hauto. rewrite interactive_block_mapping_declined by assumption. split.
    + case_bool_decide as He; [reflexivity |]. rewrite Hb.
      intros [H | H]; [now apply get_fold_fill_absent | now apply get_fold_fill_undiscovered].
    + intros d Hd Hin.
      case_bool_decide as He; [rewrite He in Hin; now apply not_elem_of_empty in Hin |].
      rewrite Hb.
      apply get_fold_fill_discovered; auto using auto_block_mappings_keys_distinct.
Qed.

Lemma auto_pass_sets_discovered_defaults_witness :
  get "role" (variable_mappings
                (_auto_map_variables
                   (with_variable_mappings [("role", "position")] with_overrides)))
  = Some "position"
  /\ get "user_name" (variable_mappings (_auto_map_variables with_overrides)) = Some "username"
  /\ get "footer" (block_mappings
                     (_interactive_block_mapping false (fun _ current => current)
                        (with_block_mappings [("footer", "page_footer")] with_overrides)))
     = Some "page_footer"
  /\ get "content" (block_mappings
                      (_interactive_block_mapping false (fun _ current => current)
                         with_overrides))
     = Some "main_content".
Proof.
  split; [| split; [| split]].
  - apply (proj1 (auto_pass_sets_discovered_defaults
                    (with_variable_mappings [("role", "position")] with_overrides)
                    (fun _ current => current) "role")).
    left. reflexivity.
  - apply (proj1 (proj2 (auto_pass_sets_discovered_defaults with_overrides
                           (fun _ current => current) "user_name"))).
    + reflexivity.
    + vm_compute. reflexivity.
  - apply (proj1 (proj2 (proj2 (auto_pass_sets_discovered_defaults
                    (with_block_mappings [("footer", "page_footer")] with_overrides)
                    (fun _ current => current) "footer")) eq_refl)).
    left. reflexivity.
  - apply (proj2 (proj2 (proj2 (auto_pass_sets_discovered_defaults with_overrides
                                  (fun _ current => current) "content")) eq_refl)).
    + reflexivity.
    + vm_compute. reflexivity.
Defined.

(** ** Rewriting: blocks *)

(** C1: a template whose block [a] contains a block [b], both closed by a
    plain [endblock], is rewritten into a text with two opening block
    directives and a single closing one.  The lazy content group stops at the
    first [endblock], so the content kept for [a] is the opening directive of
    [b] and its text, and the closing directive the engine adds is the only
    one. *)
Theorem nested_blocks_rewritten_unbalanced :
  _extract_blocks_content (source nested_facts) = [("a", "{% block b %}x")]
  /\ _generate_new_template (init sample_config) nested_facts "page.html"
     = "{% extends 'base.html' %}

{% block a %}
{% block b %}x
{% endblock %}

<!-- Migrated template -->
<!-- Original: page.html -->
<!-- Variables:  -->"
  /\ block_opens (_generate_new_template (init sample_config) nested_facts "page.html") = 2
  /\ block_closes (_generate_new_template (init sample_config) nested_facts "page.html") = 1.
Proof. repeat split; vm_compute; reflexivity. Qed.

(** C3: with an empty mapping store and no base template, the blocks of the
    rewritten text are not those of the template.  For the template in which
    a block [b] stands inside a block [a], whose blocks are [a] and [b], the
    content extraction finds [a] only, and so it does in the text written,
    which has an opening directive for [b] that is never closed.  For the
    template whose block [a] is written with whitespace control the
    extraction finds nothing, and the text written has no block at all. *)
Theorem identity_rewrite_loses_blocks :
  (blocks nested_facts = ["a"; "b"]
   /\ keys (_extract_blocks_content (source nested_facts)) = ["a"]
   /\ keys (_extract_blocks_content
              (_generate_new_template (init without_base) nested_facts "page.html"))
      = ["a"]
   /\ block_opens (_generate_new_template (init without_base) nested_facts "page.html") = 2
   /\ block_closes (_generate_new_template (init without_base) nested_facts "page.html") = 1)
  /\ (blocks trimmed_facts = ["a"]
      /\ keys (_extract_blocks_content (source trimmed_facts)) = []
      /\ _generate_new_template (init without_base) trimmed_facts "page.html"
         = "<!-- Migrated template -->
<!-- Original: page.html -->
<!-- Variables:  -->").
Proof. repeat split; vm_compute; reflexivity. Qed.

(** ** Rewriting: variables *)

(** C4: with the single mapping of [title] to [page.title], the directive
    [{% if title and role %}] is replaced as a whole by [page.title]: the
    third pattern matches the directive from its opening to its closing
    delimiter once the first pattern has put [page.title] in it.  The
    variable [role], which has no mapping entry, is gone from the content,
    and so is the directive that the closing [endif] belongs to. *)
Theorem unmapped_variable_lost_in_directive :
  get "role" (variable_mappings title_under_page) = None
  /\ contains "role" guarded_heading = true
  /\ _apply_variable_mappings title_under_page guarded_heading
     = "page.title<h1>{{ page.title }}</h1>{% endif %}"
  /\ contains "role" (_apply_variable_mappings title_under_page guarded_heading) = false
  /\ _generate_new_template title_under_page guarded_page "page.html"
     = "{% extends 'base.html' %}

{% block content %}
page.title<h1>{{ page.title }}</h1>{% endif %}
{% endblock %}

<!-- Migrated template -->
<!-- Original: page.html -->
<!-- Variables: title, role -->
<!-- Variable mappings: {'title': 'page.title'} -->".
Proof. repeat split; vm_compute; reflexivity. Qed.

(** ** One template through the pipeline *)

Section MigrateTemplate.

Variable env : environment.
Implicit Types (self : JinjaMigrator) (w : world) (p : string).

Lemma migrate_template_outcome p self w :
  outcome env p self w (migrate_template env p self w).
Proof.
  unfold migrate_template.
  destruct (_should_exclude self p) eqn:Hex; [now constructor |].
  destruct (_interactive_template_mapping env p self w) as [[[target |] self1] w1] eqn:Hmap.
  - unfold _extract_template_info.
    destruct (loader env p) as [template |] eqn:Hl.
    + eapply NotRead; eauto.
    + eapply NotLoaded; eauto.
  - eapply Skipped; eauto.
Qed.

Lemma same_setup_refl self : same_setup self self.
Proof. repeat split. Qed.

Lemma same_setup_trans self1 self2 self3 :
  same_setup self1 self2 -> same_setup self2 self3 -> same_setup self1 self3.
Proof.
  intros (A1 & A2 & A3) (B1 & B2 & B3). repeat split; congruence.
Qed.

Lemma should_exclude_same_setup self self' p :
  same_setup self self' -> _should_exclude self' p = _should_exclude self p.
Proof. intros (H & _). unfold _should_exclude. now rewrite H. Qed.

(** The target path is the one already mapped, or the operator's choice. *)
Lemma template_mapping_spec p self w r self1 w1 :
  _interactive_template_mapping env p self w = (r, self1, w1) ->
  same_setup self self1
  /\ migration_log self1 = migration_log self
  /\ target_files w1 = target_files w
  /\ match get p (template_mappings self) with
     | Some t => r = Some t /\ self1 = self /\ w1 = w
     | None =>
         prompts w1 = S (prompts w)
         /\ match operator env (prompts w) with
            | KeepPath => r = Some p
            | UseSuggested => r = Some (_suggest_template_path p)
            | CustomPath q => r = Some q
            | SkipTemplate => r = None /\ self1 = self
            end
     end.
Proof.
  unfold _interactive_template_mapping.
  destruct (get p (template_mappings self)) as [t |].
  - intros [= <- <- <-]. repeat split.
  - destruct (operator env (prompts w)); intros [= <- <- <-]; repeat split.
Qed.

(** [_extract_template_info] returns the empty dictionary or raises, and
    leaves the migrator as it was. *)
Lemma extract_template_info_spec p self :
  _extract_template_info env p self
  = (match loader env p with
     | None => Returned None
     | Some _ => Raised AttributeError
     end, self).
Proof. unfold _extract_template_info. now destruct (loader env p). Qed.

(** Whatever the way through, the setup is kept and the log only grows. *)
Lemma outcome_frame p self w ok self' w' :
  outcome env p self w (ok, self', w') ->
  same_setup self self'
  /\ exists entries,
       migration_log self' = migration_log self ++ entries
       /\ length entries <= 1.
Proof.
  intros H.
  inversion H as [Hex | s1 w1 Hex Hmap | t s1 w1 Hex Hmap Hl
                  | t s1 w1 template Hex Hmap Hl]; subst.
  - split; [apply same_setup_refl |].
    exists []. rewrite app_nil_r. split; [reflexivity | simpl; lia].
  - apply template_mapping_spec in Hmap as (S1 & L1 & _).
    split; [assumption |].
    exists []. rewrite app_nil_r. split; [assumption | simpl; lia].
  - apply template_mapping_spec in Hmap as (S1 & L1 & _).
    split; [assumption |].
    exists []. rewrite app_nil_r. split; [assumption | simpl; lia].
  - apply template_mapping_spec in Hmap as (S1 & L1 & _).
    split; [assumption |].
    exists []. rewrite app_nil_r. split; [assumption | simpl; lia].
Qed.

End MigrateTemplate.

(** ** The batch *)

Section Batch.

Variable env : environment.
Implicit Types (self : JinjaMigrator) (w : world) (p : string).

(** A template counts as successful when it is routed away or leaves a log
    entry. *)
Lemma outcome_count p self w ok self' w' :
  outcome env p self w (ok, self', w') ->
  exists entries,
    migration_log self' = migration_log self ++ entries
    /\ (if ok then 1 else 0)
       = length entries + (if routed_away env p self w then 1 else 0).
Proof.
  intros H. unfold routed_away.
  inversion H as [Hex | s1 w1 Hex Hmap | t s1 w1 Hex Hmap Hl
                  | t s1 w1 template Hex Hmap Hl]; subst; rewrite Hex; simpl.
  - exists []. now rewrite app_nil_r.
  - rewrite Hmap. apply template_mapping_spec in Hmap as (_ & L1 & _).
    exists []. now rewrite app_nil_r.
  - rewrite Hmap. apply template_mapping_spec in Hmap as (_ & L1 & _).
    exists []. now rewrite app_nil_r.
  - rewrite Hmap. apply template_mapping_spec in Hmap as (_ & L1 & _).
    exists []. now rewrite app_nil_r.
Qed.

Lemma preset_log auto p self :
  migration_log (preset auto p self) = migration_log self.
Proof. unfold preset. now destruct auto. Qed.

Lemma preset_same_setup auto p self : same_setup self (preset auto p self).
Proof. unfold preset. destruct auto; repeat split. Qed.

Lemma migrate_all_counts auto templates :
  forall self w t0,
  exists entries,
    let '(t, self', w') := migrate_all env auto templates self w t0 in
    migration_log self' = migration_log self ++ entries
    /\ successful t = successful t0 + length entries
                      + count_routed_away env auto templates self w
    /\ successful t + failed t = successful t0 + failed t0 + length templates.
Proof.
  induction templates as [| p more IH]; intros self w t0.
  - exists []. simpl. rewrite app_nil_r. repeat split; lia.
  - cbn [migrate_all count_routed_away].
    pose proof (migrate_template_outcome env p (preset auto p self) w) as Hout.
    destruct (migrate_template env p (preset auto p self) w) as [[ok self1] w1].
    apply outcome_count in Hout as (e1 & Hlog1 & Hcount).
    rewrite preset_log in Hlog1.
    destruct ok.
    + destruct (IH self1 w1 {| successful := S (successful t0); failed := failed t0 |})
        as (e2 & Hrest).
      exists (e1 ++ e2).
      destruct (migrate_all env auto more self1 w1 _) as [[t self'] w'].
      destruct Hrest as (Hlog2 & Hs & Hsum). cbn [successful failed] in Hs, Hsum.
      rewrite Hlog2, Hlog1, length_app, <- app_assoc.
      cbn [length]. repeat split; lia.
    + destruct (IH self1 w1 {| successful := successful t0; failed := S (failed t0) |})
        as (e2 & Hrest).
      exists (e1 ++ e2).
      destruct (migrate_all env auto more self1 w1 _) as [[t self'] w'].
      destruct Hrest as (Hlog2 & Hs & Hsum). cbn [successful failed] in Hs, Hsum.
      rewrite Hlog2, Hlog1, length_app, <- app_assoc.
      cbn [length]. repeat split; lia.
Qed.

End Batch.

(** C10: a template that is routed away before rewriting, because a pattern
    excludes it or because the operator skips it, makes [migrate_template]
    return [True] with the migrator, its log and the target files as they
    were.  The count of successful templates of a run is therefore the
    number of rewritten templates, each with its log entry, plus the number
    of templates routed away. *)
Theorem routed_away_counted_successful env :
  (forall p self w,
     routed_away env p self w = true ->
     exists w',
       migrate_template env p self w = (true, self, w')
       /\ target_files w' = target_files w)
  /\ (forall auto templates self w,
        exists rewritten,
          let '(t, self', w') := run_migration env auto templates self w in
          migration_log self' = migration_log self ++ rewritten
          /\ successful t = length rewritten
                            + count_routed_away env auto templates self w
          /\ successful t + failed t = length templates).
Proof.
  split.
  - intros p self w H. unfold routed_away in H. unfold migrate_template.
    destruct (_should_exclude self p); [now exists w |].
    simpl in H.
    destruct (_interactive_template_mapping env p self w) as [[[t |] s1] w1] eqn:Hmap;
      [discriminate |].
    apply template_mapping_spec in Hmap as (_ & _ & Hfiles & Hcase).
    destruct (get p (template_mappings self)); [now destruct Hcase |].
    destruct Hcase as (_ & Hop).
    destruct (operator env (prompts w)); try discriminate.
    destruct Hop as (_ & ->). now exists w1.
  - intros auto templates self w. unfold run_migration.
    destruct (migrate_all_counts env auto templates self w
                {| successful := 0; failed := 0 |}) as (entries & H).
    exists entries.
    destruct (migrate_all env auto templates self w _) as [[t self'] w'].
    exact H.
Qed.

Lemma routed_away_counted_successful_witness :
  (exists w',
     migrate_template (unattended []) "old_backup.html" (init sample_config) fresh_world
       = (true, init sample_config, w')
     /\ target_files w' = target_files fresh_world)
  /\ (exists w',
        migrate_template (reluctant two_of_three) "first.html" (init sample_config) fresh_world
          = (true, init sample_config, w')
        /\ target_files w' = target_files fresh_world).
Proof.
  split.
  - apply (proj1 (routed_away_counted_successful (unattended []))).
    vm_compute. reflexivity.
  - apply (proj1 (routed_away_counted_successful (reluctant two_of_three))).
    vm_compute. reflexivity.
Defined.

(** ** A batch with a template that does not parse *)

Section Isolation.

Variable env : environment.

Implicit Types (self : JinjaMigrator) (w : world) (p : string).

(** A template that is not routed away fails, whether it can be loaded or
    not, and leaves the log and the files alone. *)
Lemma step_fails p self w :
  routed_away env p self w = false ->
  exists self' w',
    migrate_template env p self w = (false, self', w')
    /\ same_setup self self'
    /\ migration_log self' = migration_log self
    /\ target_files w' = target_files w.
Proof.
  intros Hr. unfold routed_away in Hr. apply orb_false_iff in Hr as [Hex Hr].
  pose proof (migrate_template_outcome env p self w) as Hout.
  destruct (_interactive_template_mapping env p self w) as [[[target |] s1] w1] eqn:Hmap;
    [| discriminate].
  inversion Hout as [Hex' | s1' w1' Hex' Hmap' | t' s1' w1' Hex' Hmap' Hl'
                     | t' s1' w1' template Hex' Hmap' Hl']; try congruence;
    rewrite Hmap in Hmap'; injection Hmap' as E1 E2 E3; subst t' s1' w1';
    apply template_mapping_spec in Hmap as (S1 & L1 & F1 & _);
    exists s1, w1; auto.
Qed.

(** An operator who skips nothing routes away only what is excluded. *)
Lemma routed_away_excluded p self w :
  (forall n, operator env n <> SkipTemplate) ->
  routed_away env p self w = _should_exclude self p.
Proof.
  intros never_skips. unfold routed_away.
  destruct (_interactive_template_mapping env p self w) as [[r self1] w1] eqn:Hmap.
  apply template_mapping_spec in Hmap as (_ & _ & _ & Hcase).
  destruct r as [target |]; [apply orb_false_r | exfalso].
  destruct (get p (template_mappings self)) as [t |].
  - now destruct Hcase.
  - destruct Hcase as (_ & Hop). pose proof (never_skips (prompts w)) as Hn.
    destruct (operator env (prompts w)); try discriminate. contradiction.
Qed.

(** The loop goes on after a template, whatever [migrate_template]
    returned for it. *)
Lemma migrate_all_step auto p more self w t :
  migrate_all env auto (p :: more) self w t
  = let '(ok, self1, w1) := migrate_template env p (preset auto p self) w in
    migrate_all env auto more self1 w1
      (if ok then {| successful := S (successful t); failed := failed t |}
       else {| successful := successful t; failed := S (failed t) |}).
Proof.
  cbn [migrate_all].
  now destruct (migrate_template env p (preset auto p self) w) as [[[|] self1] w1].
Qed.

(** A batch of which no template is routed away has only failures. *)
Lemma migrate_all_fails auto templates : forall self w t,
  (forall n, operator env n <> SkipTemplate) ->
  Forall (fun p => _should_exclude self p = false) templates ->
  exists self' w',
    migrate_all env auto templates self w t
    = ({| successful := successful t; failed := failed t + length templates |}, self', w')
    /\ same_setup self self'
    /\ migration_log self' = migration_log self
    /\ target_files w' = target_files w.
Proof.
  induction templates as [| p more IH]; intros self w t Hop Hex.
  - exists self, w. simpl. rewrite Nat.add_0_r. destruct t.
    split; [reflexivity |]. split; [apply same_setup_refl | auto].
  - inversion Hex as [| ? ? Hp Hmore]; subst.
    pose proof (preset_same_setup auto p self) as P0.
    destruct (step_fails p (preset auto p self) w) as (s1 & w1 & E1 & S1 & L1 & F1).
    { rewrite routed_away_excluded by assumption.
      now rewrite (should_exclude_same_setup self). }
    assert (same_setup self s1) as A1 by (eapply same_setup_trans; eauto).
    rewrite migrate_all_step, E1.
    destruct (IH s1 w1 {| successful := successful t; failed := S (failed t) |} Hop)
      as (s2 & w2 & E2 & S2 & L2 & F2).
    { eapply Forall_impl; [exact Hmore |]. intros q Hq. cbn beta in Hq.
      now rewrite (should_exclude_same_setup self). }
    exists s2, w2. rewrite E2. cbn [successful failed length].
    split; [do 3 f_equal; lia |].
    split; [eapply same_setup_trans; eauto |].
    split; [now rewrite L2, L1, preset_log | now rewrite F2, F1].
Qed.

End Isolation.

(** C9: in a batch of three templates of which the second cannot be parsed
    and the other two can be loaded, with no template excluded and an
    operator who skips none, the loop goes through all three and counts no
    successful template and three failed ones; nothing is added to the log
    and no file is written.  The first and the third template fail because
    [_extract_template_info] raises for a template that loads; called from
    [analyze_all_templates], where nothing catches it, the same exception
    ends the analysis of the batch at the first template. *)
Theorem batch_of_three_counts_three_failures env auto self w t1 t2 t3 p1 p3 :
  (forall n, operator env n <> SkipTemplate) ->
  _should_exclude self t1 = false ->
  _should_exclude self t2 = false ->
  _should_exclude self t3 = false ->
  loader env t1 = Some p1 ->
  loader env t2 = None ->
  loader env t3 = Some p3 ->
  (exists self' w',
     run_migration env auto [t1; t2; t3] self w
       = ({| successful := 0; failed := 3 |}, self', w')
     /\ migration_log self' = migration_log self
     /\ target_files w' = target_files w)
  /\ analyze_all_templates env [t1; t2; t3] self = (Raised AttributeError, self).
Proof.
  intros Hop Hex1 Hex2 Hex3 Hl1 Hl2 Hl3. split.
  - unfold run_migration.
    destruct (migrate_all_fails env auto [t1; t2; t3] self w
                {| successful := 0; failed := 0 |} Hop)
      as (self' & w' & E & _ & L & F).
    { repeat constructor; assumption. }
    exists self', w'. rewrite E. auto.
  - cbn [analyze_all_templates]. rewrite Hex1, extract_template_info_spec, Hl1.
    reflexivity.
Qed.

Lemma batch_of_three_counts_three_failures_witness :
  (exists self' w',
     run_migration (unattended two_of_three) true batch_of_three
                   (init sample_config) fresh_world
       = ({| successful := 0; failed := 3 |}, self', w')
     /\ migration_log self' = migration_log (init sample_config)
     /\ target_files w' = target_files fresh_world)
  /\ analyze_all_templates (unattended two_of_three) batch_of_three (init sample_config)
     = (Raised AttributeError, init sample_config).
Proof.
  apply (batch_of_three_counts_three_failures
           (unattended two_of_three) true (init sample_config) fresh_world
           "first.html" "broken.html" "third.html"
           {| template_name := "first.html" |} {| template_name := "third.html" |}).
  - intros n. discriminate.
  - vm_compute. reflexivity.
  - vm_compute. reflexivity.
  - vm_compute. reflexivity.
  - vm_compute. reflexivity.
  - vm_compute. reflexivity.
  - vm_compute. reflexivity.
Defined.

(** ** The matcher on literals, repetitions and anchors *)

Section MatcherFacts.

Implicit Types (cu : cursor) (k : cursor -> option cursor) (w sn rs : list ascii).

Lemma strip_prefix_app w rs rs' :
  strip_prefix w rs = Some rs' <-> rs = w ++ rs'.
Proof.
  revert rs. induction w as [| a w IH]; intros rs; simpl.
  - split; [now intros [= ->] | now intros ->].
  - destruct rs as [| b rs]; [split; discriminate |].
    destruct (Ascii.eqb_spec a b) as [-> | Hne].
    + rewrite IH. split; [now intros -> | now intros [= ->]].
    + split; [discriminate | intros [= E _]; congruence].
Qed.

Lemma advance_strip_prefix w cu :
  advance w cu =
    match strip_prefix w (rest cu) with
    | Some rs' => Some (Cursor (rev w ++ seen cu) rs' (groups cu))
    | None => None
    end.
Proof.
  revert cu. induction w as [| a w IH]; intros cu; simpl.
  - now destruct cu.
  - destruct (rest cu) as [| b t] eqn:E; [reflexivity |].
    destruct (Ascii.eqb a b) eqn:Eab; [| reflexivity].
    apply Ascii.eqb_eq in Eab. subst b.
    rewrite IH. simpl. destruct (strip_prefix w t); [| reflexivity].
    now rewrite <- app_assoc.
Qed.

Lemma run_lit w cu k :
  run (lit_chars w) cu k =
    match advance w cu with
    | Some cu' => k cu'
    | None => None
    end.
Proof.
  revert cu. induction w as [| a w IH]; intros cu; simpl.
  - reflexivity.
  - destruct (rest cu) as [| b t]; [reflexivity |].
    destruct (Ascii.eqb a b); [apply IH | reflexivity].
Qed.

(** A repetition that lets the rest of the pattern succeed has consumed
    some characters of the class, and the rest succeeds from there. *)
Lemma star_sound cl greedy rs : forall sn gs k c,
  star cl greedy sn rs gs k = Some c ->
  exists u rs',
    rs = u ++ rs'
    /\ Forall (fun a => accepts cl a = true) u
    /\ k (Cursor (rev u ++ sn) rs' gs) = Some c.
Proof.
  induction rs as [| a t IH]; intros sn gs k c H; simpl in H.
  - exists [], []. auto.
  - assert (k (Cursor sn (a :: t) gs) = Some c ->
            exists u rs', a :: t = u ++ rs'
              /\ Forall (fun a => accepts cl a = true) u
              /\ k (Cursor (rev u ++ sn) rs' gs) = Some c) as Hstop.
    { intros Hk. exists [], (a :: t). auto. }
    destruct (accepts cl a) eqn:Ha; [| auto].
    assert (star cl greedy (a :: sn) t gs k = Some c ->
            exists u rs', a :: t = u ++ rs'
              /\ Forall (fun a => accepts cl a = true) u
              /\ k (Cursor (rev u ++ sn) rs' gs) = Some c) as Hmore.
    { intros Hs. apply IH in Hs as (u & rs' & -> & Hu & Hk).
      exists (a :: u), rs'. split; [reflexivity |]. split; [now constructor |].
      simpl. now rewrite <- app_assoc. }
    destruct greedy; unfold orelse in H.
    + destruct (star cl true (a :: sn) t gs k) eqn:E; [injection H as ->; auto | auto].
    + destruct (k (Cursor sn (a :: t) gs)) eqn:E; [injection H as ->; auto | auto].
Qed.

Lemma first_word_app_word u l :
  u <> [] -> Forall (fun a => is_word a = true) u -> first_word (u ++ l) = true.
Proof.
  destruct u as [| a u]; [congruence |].
  intros _ H. simpl. now inversion H.
Qed.

Lemma first_word_rev_word u l :
  u <> [] -> Forall (fun a => is_word a = true) u -> first_word (rev u ++ l) = true.
Proof.
  intros Hne H. apply first_word_app_word.
  - intros E. apply (f_equal (@rev ascii)) in E. rewrite rev_involutive in E. now simpl in E.
  - now apply Forall_rev.
Qed.

Lemma space_not_word a : is_space a = true -> is_word a = false.
Proof.
  destruct a as [[] [] [] [] [] [] [] []]; vm_compute; intros H; congruence.
Qed.

End MatcherFacts.

(** ** Renaming one variable, word by word *)

Section WordRenaming.

Variables old new : list ascii.
Hypothesis old_nonempty : old <> [].
Hypothesis old_word : Forall (fun a => is_word a = true) old.

Implicit Types (sn rs run u : list ascii).

Lemma match_whole_word ma sn rs :
  match_here (whole_word old) ma sn rs =
    if word_here old sn rs
    then match strip_prefix old rs with
         | Some rs' => Some (Cursor (rev old ++ sn) rs' [])
         | None => None
         end
    else None.
Proof.
  unfold match_here, whole_word, word_here. cbn [cat_all run].
  unfold at_boundary at 1. cbn [seen rest].
  rewrite run_lit, advance_strip_prefix. cbn [seen rest groups].
  destruct (strip_prefix old rs) as [rs' |] eqn:E.
  - apply strip_prefix_app in E. subst rs.
    rewrite (first_word_app_word old rs') by assumption.
    cbn [run]. unfold at_boundary. cbn [seen rest].
    rewrite (first_word_rev_word old sn) by assumption.
    destruct (first_word sn); [reflexivity |].
    destruct (first_word rs'); [reflexivity |]. simpl.
    rewrite length_app.
    destruct old as [| a o]; [congruence |]. simpl.
    replace (length rs' =? S (length o + length rs')) with false;
      [now rewrite andb_false_r |].
    symmetry. apply Nat.eqb_neq. lia.
  - rewrite andb_false_r. now destruct (negb _).
Qed.

Lemma pieces_skip r u : forall sn rs,
  pieces r sn (u ++ rs) (length u) = pieces r (rev u ++ sn) rs 0.
Proof.
  induction u as [| a u IH]; intros sn rs.
  - reflexivity.
  - simpl. rewrite IH. now rewrite <- app_assoc.
Qed.

Lemma span_word_app rs : rs = fst (span_word rs) ++ snd (span_word rs).
Proof.
  induction rs as [| a t IH]; simpl; [reflexivity |].
  destruct (is_word a); simpl; [now f_equal | reflexivity].
Qed.

Lemma span_word_word rs : Forall (fun a => is_word a = true) (fst (span_word rs)).
Proof.
  induction rs as [| a t IH]; simpl; [constructor |].
  destruct (is_word a) eqn:E; simpl; [now constructor | constructor].
Qed.

Lemma span_word_stop rs : first_word (snd (span_word rs)) = false.
Proof.
  induction rs as [| a t IH]; simpl; [reflexivity |].
  destruct (is_word a) eqn:E; simpl; [assumption | assumption].
Qed.

Lemma span_word_unique u rs :
  Forall (fun a => is_word a = true) u -> first_word rs = false ->
  span_word (u ++ rs) = (u, rs).
Proof.
  intros Hu Hrs. induction Hu as [| a u Ha Hu IH]; simpl.
  - destruct rs as [| b t]; [reflexivity |]. simpl in *. now rewrite Hrs.
  - rewrite Ha, IH. reflexivity.
Qed.

Lemma span_word_length rs : length (snd (span_word rs)) <= length rs.
Proof.
  rewrite (span_word_app rs) at 2. rewrite length_app. lia.
Qed.

Lemma rename_runs_word u : forall run rs,
  Forall (fun a => is_word a = true) u -> first_word rs = false ->
  rename_runs old new run (u ++ rs)
  = written old new (rev u ++ run)
    ++ match rs with
       | [] => []
       | b :: t => b :: rename_runs old new [] t
       end.
Proof.
  induction u as [| a u IH]; intros run rs Hu Hrs.
  - simpl. destruct rs as [| b t]; simpl.
    + unfold written. destruct run; [reflexivity | now rewrite app_nil_r].
    + simpl in Hrs. rewrite Hrs. reflexivity.
  - inversion Hu as [| ? ? Ha Hu']; subst. simpl. rewrite Ha.
    rewrite IH by assumption. now rewrite <- app_assoc.
Qed.

Lemma rename_runs_stop rs :
  first_word rs = false ->
  rename_runs old new [] rs
  = match rs with
    | [] => []
    | b :: t => b :: rename_runs old new [] t
    end.
Proof.
  intros H. apply (rename_runs_word [] [] rs); [constructor | assumption].
Qed.

Lemma rename_runs_span u rs :
  Forall (fun a => is_word a = true) u -> first_word rs = false ->
  rename_runs old new [] (u ++ rs) = written old new (rev u) ++ rename_runs old new [] rs.
Proof.
  intros Hu Hrs. rewrite rename_runs_word by assumption.
  rewrite app_nil_r. now rewrite <- rename_runs_stop.
Qed.

Lemma written_rev u :
  u <> [] -> written old new (rev u) = if bool_decide (u = old) then new else u.
Proof.
  intros Hne. unfold written.
  destruct (rev u) eqn:E.
  - apply (f_equal (@rev ascii)) in E. rewrite rev_involutive in E. now simpl in E.
  - rewrite <- E. unfold flush. now rewrite rev_involutive.
Qed.

Lemma emit_keep repl a ps : emit repl (Keep a :: ps) = a :: emit repl ps.
Proof. reflexivity. Qed.

Lemma emit_hit repl c1 c2 ps : emit repl (Hit c1 c2 :: ps) = repl ++ emit repl ps.
Proof. reflexivity. Qed.

(** A match of non-zero width: the scan resumes where the match ends. *)
Lemma pieces_hit r u sn rs cu :
  u <> [] ->
  match_here r false sn (u ++ rs) = Some cu ->
  rest cu = rs ->
  pieces r sn (u ++ rs) 0
  = Hit (Cursor sn (u ++ rs) []) cu :: pieces r (rev u ++ sn) rs 0.
Proof.
  intros Hne Hm Hrest. destruct u as [| a o]; [congruence |].
  cbn [app pieces]. change (a :: o ++ rs) with ((a :: o) ++ rs). rewrite Hm.
  unfold width. rewrite Hrest, length_app. cbn [length].
  replace (S (length o) + length rs - length rs) with (S (length o)) by lia.
  cbn [app]. rewrite pieces_skip. simpl. now rewrite <- app_assoc.
Qed.

Lemma pieces_miss r a sn t :
  match_here r false sn (a :: t) = None ->
  pieces r sn (a :: t) 0 = Keep a :: pieces r (a :: sn) t 0.
Proof. intros H. cbn [pieces]. now rewrite H. Qed.

Lemma pieces_miss_end r sn :
  match_here r false sn [] = None -> pieces r sn [] 0 = [].
Proof. intros H. cbn [pieces]. now rewrite H. Qed.

Lemma old_length : 1 <= length old.
Proof. destruct old; [congruence | simpl; lia]. Qed.

Lemma word_here_inside sn rs : first_word sn = true -> word_here old sn rs = false.
Proof. intros H. unfold word_here. now rewrite H. Qed.

Lemma word_here_decompose sn rs :
  word_here old sn rs = true ->
  first_word sn = false /\ exists r, rs = old ++ r /\ first_word r = false.
Proof.
  unfold word_here. intros H. apply andb_true_iff in H as [H1 H2].
  apply negb_true_iff in H1. split; [assumption |].
  destruct (strip_prefix old rs) as [r |] eqn:E; [| discriminate].
  apply strip_prefix_app in E. apply negb_true_iff in H2. eauto.
Qed.

Lemma word_here_compose sn r :
  first_word sn = false -> first_word r = false -> word_here old sn (old ++ r) = true.
Proof.
  intros H1 H2. unfold word_here. rewrite H1.
  assert (strip_prefix old (old ++ r) = Some r) as -> by (now apply strip_prefix_app).
  now rewrite H2.
Qed.

Lemma no_match_whole_word ma sn rs :
  word_here old sn rs = false -> match_here (whole_word old) ma sn rs = None.
Proof. intros H. rewrite match_whole_word. now rewrite H. Qed.

(** Replacing the matches of [\bold\b], position by position, is renaming
    word by word.  Inside a word no match starts, so the rest of the word is
    copied. *)
Lemma emit_whole_word n : forall rs sn,
  length rs <= n ->
  (first_word sn = false ->
     emit new (pieces (whole_word old) sn rs 0) = rename_runs old new [] rs)
  /\ (first_word sn = true ->
        emit new (pieces (whole_word old) sn rs 0)
        = fst (span_word rs) ++ rename_runs old new [] (snd (span_word rs))).
Proof.
  induction n as [| n IH]; intros rs sn Hlen.
  { destruct rs; [| simpl in Hlen; lia].
    assert (word_here old sn [] = false) as Hw.
    { destruct (word_here old sn []) eqn:E; [| reflexivity].
      apply word_here_decompose in E as (_ & r & E & _).
      pose proof old_length as Hl. apply (f_equal (@length ascii)) in E.
      rewrite length_app in E. simpl in E. lia. }
    split; intros _; now rewrite pieces_miss_end by (now apply no_match_whole_word). }
  split; intros Hsn.
  - (* at the start of a word, or between words *)
    destruct (word_here old sn rs) eqn:Hw.
    + (* the word ahead is [old] *)
      apply word_here_decompose in Hw as (_ & r & -> & Hr).
      pose proof old_length as Hl.
      rewrite (pieces_hit (whole_word old) old sn r (Cursor (rev old ++ sn) r []));
        [| assumption | | reflexivity].
      2:{ rewrite match_whole_word, word_here_compose by assumption.
          assert (strip_prefix old (old ++ r) = Some r) as -> by (now apply strip_prefix_app).
          reflexivity. }
      rewrite emit_hit.
      destruct (IH r (rev old ++ sn)) as [_ IH2];
        [rewrite length_app in Hlen; lia |].
      rewrite IH2 by (now apply first_word_rev_word).
      pose proof (span_word_unique [] r (Forall_nil_2 _) Hr) as Hspan. cbn [app] in Hspan.
      rewrite Hspan. cbn [fst snd app].
      rewrite rename_runs_span by assumption.
      rewrite written_rev by assumption.
      now rewrite bool_decide_eq_true_2.
    + (* no match here *)
      destruct rs as [| a t].
      { now rewrite pieces_miss_end by (now apply no_match_whole_word). }
      simpl in Hlen. assert (length t <= n) as Ht by lia.
      rewrite pieces_miss, emit_keep by (now apply no_match_whole_word).
      destruct (is_word a) eqn:Ha.
      * destruct (IH t (a :: sn) Ht) as [_ IH2].
        rewrite IH2 by (simpl; assumption).
        pose proof (span_word_app t) as Happ.
        pose proof (span_word_word t) as Hword.
        pose proof (span_word_stop t) as Hstop.
        destruct (span_word t) as [u r]. cbn [fst snd] in *. subst t.
        change (a :: u ++ r) with ((a :: u) ++ r).
        rewrite rename_runs_span by (auto; now constructor).
        rewrite written_rev by discriminate.
        case_bool_decide as Hu; [| reflexivity].
        exfalso. change (a :: u ++ r) with ((a :: u) ++ r) in Hw.
        rewrite Hu, word_here_compose in Hw by assumption. discriminate.
      * destruct (IH t (a :: sn) Ht) as [IH1 _].
        rewrite IH1 by (simpl; assumption).
        simpl. now rewrite Ha.
  - (* inside a word *)
    destruct rs as [| a t].
    { now rewrite pieces_miss_end
        by (apply no_match_whole_word; now apply word_here_inside). }
    simpl in Hlen. assert (length t <= n) as Ht by lia.
    rewrite pieces_miss, emit_keep
      by (apply no_match_whole_word; now apply word_here_inside).
    simpl span_word. destruct (is_word a) eqn:Ha.
    + destruct (IH t (a :: sn) Ht) as [_ IH2].
      rewrite IH2 by (simpl; assumption). reflexivity.
    + destruct (IH t (a :: sn) Ht) as [IH1 _].
      rewrite IH1 by (simpl; assumption).
      simpl. now rewrite Ha.
Qed.

Lemma sub_whole_word l :
  sub_chars (whole_word old) new l = rename_runs old new [] l.
Proof.
  apply (emit_whole_word (length l) l []); [lia | reflexivity].
Qed.

(** *** The renamed text has no whole word [old] left *)

Hypothesis new_word : Forall (fun a => is_word a = true) new.
Hypothesis new_differs : new <> old.

Lemma word_here_nonword sn rs : first_word rs = false -> word_here old sn rs = false.
Proof.
  intros H. destruct (word_here old sn rs) eqn:E; [| reflexivity].
  apply word_here_decompose in E as (_ & r & -> & _).
  now rewrite first_word_app_word in H.
Qed.

(** A word other than [old], or the rest of a word, holds no match. *)
Lemma no_whole_word_block F : forall sn tail,
  Forall (fun a => is_word a = true) F ->
  first_word tail = false ->
  (first_word sn = false -> F <> old) ->
  no_whole_word old sn (F ++ tail) = no_whole_word old (rev F ++ sn) tail.
Proof.
  induction F as [| a F IH]; intros sn tail HF Htail Hne.
  - reflexivity.
  - inversion HF as [| ? ? Ha HF']; subst.
    cbn [app no_whole_word].
    assert (word_here old sn (a :: F ++ tail) = false) as ->.
    { destruct (word_here old sn (a :: F ++ tail)) eqn:E; [| reflexivity].
      apply word_here_decompose in E as (Hsn & r & E & Hr).
      exfalso. apply (Hne Hsn).
      change (a :: F ++ tail) with ((a :: F) ++ tail) in E.
      pose proof (span_word_unique (a :: F) tail HF Htail) as S1.
      pose proof (span_word_unique old r old_word Hr) as S2.
      rewrite E in S1. congruence. }
    cbn [negb andb]. rewrite IH; try assumption.
    + simpl. now rewrite <- app_assoc.
    + simpl. rewrite Ha. discriminate.
Qed.

Lemma written_word run :
  Forall (fun a => is_word a = true) run ->
  Forall (fun a => is_word a = true) (written old new run) /\ written old new run <> old.
Proof.
  intros H. unfold written. destruct run as [| a run'] eqn:E.
  - split; [constructor | auto].
  - rewrite <- E in *. unfold flush. case_bool_decide as Hd.
    + split; assumption.
    + split; [now apply Forall_rev | assumption].
Qed.

Lemma rename_runs_no_whole_word l : forall run sn,
  Forall (fun a => is_word a = true) run ->
  first_word sn = false ->
  no_whole_word old sn (rename_runs old new run l) = true.
Proof.
  induction l as [| a l IH]; intros run sn Hrun Hsn.
  - cbn [rename_runs]. fold (written old new run).
    destruct (written_word run Hrun) as [Hw Hne].
    rewrite <- (app_nil_r (written old new run)).
    rewrite no_whole_word_block by auto.
    cbn [no_whole_word]. now rewrite word_here_nonword.
  - cbn [rename_runs]. destruct (is_word a) eqn:Ha.
    + apply IH; [now constructor | assumption].
    + fold (written old new run).
      destruct (written_word run Hrun) as [Hw Hne].
      rewrite no_whole_word_block by (simpl; auto).
      cbn [no_whole_word].
      rewrite word_here_nonword by (simpl; assumption).
      apply IH; [constructor | simpl; assumption].
Qed.

Lemma no_whole_word_split pre : forall sn post,
  no_whole_word old sn (pre ++ post) = true ->
  word_here old (rev pre ++ sn) post = false.
Proof.
  induction pre as [| a pre IH]; intros sn post H.
  - cbn [app rev]. destruct post; cbn [no_whole_word] in H;
      apply andb_true_iff in H as [H _]; now apply negb_true_iff in H.
  - cbn [app no_whole_word] in H. apply andb_true_iff in H as [_ H].
    apply IH in H. simpl. now rewrite <- app_assoc.
Qed.

(** *** A pattern that matches nowhere leaves the text as it is *)

Lemma emit_no_match r repl rs : forall sn,
  (forall pre post, rs = pre ++ post -> match_here r false (rev pre ++ sn) post = None) ->
  emit repl (pieces r sn rs 0) = rs.
Proof.
  induction rs as [| a t IH]; intros sn H.
  - rewrite pieces_miss_end; [reflexivity |]. apply (H [] []). reflexivity.
  - rewrite pieces_miss, emit_keep by (apply (H [] (a :: t)); reflexivity).
    f_equal. apply IH. intros pre post E.
    specialize (H (a :: pre) post). simpl in H. rewrite <- app_assoc in H.
    apply H. now rewrite E.
Qed.

(** *** The second and third pattern need a whole word [old] *)

Ltac literal H E :=
  rewrite run_lit, advance_strip_prefix in H; cbn [seen rest groups] in H;
  let r := fresh "rs" in
  destruct (strip_prefix _ _) as [r |] eqn:E in H; [| discriminate H];
  apply strip_prefix_app in E.

Ltac repetition H u E Hu :=
  cbn [run seen rest groups] in H;
  let r := fresh "rs" in
  apply star_sound in H as (u & r & E & Hu & H);
  cbn beta in H.

Lemma first_word_after_spaces u a l :
  Forall (fun c => accepts Space c = true) u ->
  is_word a = false ->
  first_word (u ++ a :: l) = false.
Proof.
  intros Hu Ha. destruct Hu as [| c u Hc Hu]; simpl; [assumption |].
  now apply space_not_word.
Qed.

Lemma first_word_before_spaces u a l :
  Forall (fun c => accepts Space c = true) u ->
  is_word a = false ->
  first_word (rev u ++ a :: l) = false.
Proof.
  intros Hu. apply first_word_after_spaces. now apply Forall_rev.
Qed.

Lemma in_braces_needs_word sn rs cu :
  match_here (in_braces old) false sn rs = Some cu ->
  exists pre post, rs = pre ++ post /\ word_here old (rev pre ++ sn) post = true.
Proof.
  unfold match_here, in_braces, lit, escape. cbn [cat_all run]. intros H.
  literal H E1. cbn [chars list_ascii_of_string app rev] in *.
  repetition H u1 E2 Hu1.
  cbn [run] in H. literal H E3.
  repetition H u2 E4 Hu2.
  literal H E5. cbn [chars list_ascii_of_string app rev] in *.
  subst. exists ("{"%char :: u1). eexists. split; [reflexivity |].
  cbn [rev]. rewrite <- app_assoc. cbn [app].
  apply word_here_compose.
  - now apply first_word_before_spaces.
  - now apply first_word_after_spaces.
Qed.

Lemma in_directive_needs_word sn rs cu :
  match_here (in_directive old) false sn rs = Some cu ->
  exists pre post, rs = pre ++ post /\ word_here old (rev pre ++ sn) post = true.
Proof.
  unfold match_here, in_directive, lit, escape. cbn [cat_all run]. intros H.
  literal H E1. cbn [chars list_ascii_of_string app rev] in *.
  repetition H u1 E2 Hu1.
  cbn [run] in H.
  destruct (at_boundary _) eqn:B1 in H; [| discriminate H].
  literal H E3. cbn [run] in H.
  destruct (at_boundary _) eqn:B2 in H; [| discriminate H].
  unfold at_boundary in B1, B2. cbn [seen rest] in B1, B2.
  subst.
  rewrite (first_word_app_word old) in B1 by assumption.
  rewrite (first_word_rev_word old) in B2 by assumption.
  exists ("{"%char :: "%"%char :: " "%char :: u1). eexists. split; [reflexivity |].
  cbn [rev]. repeat rewrite <- app_assoc. cbn [app].
  apply word_here_compose.
  - destruct (first_word (rev u1 ++ _)); [discriminate B1 | reflexivity].
  - destruct (first_word rs2); [discriminate B2 | reflexivity].
Qed.

Lemma sub_without_whole_word r l :
  (forall sn rs cu,
     match_here r false sn rs = Some cu ->
     exists pre post, rs = pre ++ post /\ word_here old (rev pre ++ sn) post = true) ->
  no_whole_word old [] l = true ->
  sub_chars r new l = l.
Proof.
  intros Hneeds Hnone. apply (emit_no_match r new l []).
  intros pre post E.
  destruct (match_here r false (rev pre ++ []) post) as [cu |] eqn:Hm; [| reflexivity].
  exfalso. apply Hneeds in Hm as (pre' & post' & -> & Hw).
  rewrite app_assoc in E. rewrite E in Hnone.
  apply no_whole_word_split in Hnone.
  rewrite rev_app_distr in Hnone. rewrite <- app_assoc in Hnone. congruence.
Qed.

(** The three substitutions for one variable, one after the other. *)
Lemma three_patterns_rename l :
  sub_chars (in_directive old) new (sub_chars (in_braces old) new (sub_chars (whole_word old) new l))
  = rename_runs old new [] l.
Proof.
  rewrite sub_whole_word.
  assert (no_whole_word old [] (rename_runs old new [] l) = true) as Hnone
    by (apply rename_runs_no_whole_word; [constructor | reflexivity]).
  rewrite (sub_without_whole_word (in_braces old) _ in_braces_needs_word Hnone).
  now rewrite (sub_without_whole_word (in_directive old) _ in_directive_needs_word Hnone).
Qed.

(** A word other than [old] between two texts that do not touch it is
    copied, and the texts are renamed on their own. *)
Lemma first_word_rev_cons a pre :
  pre <> [] -> first_word (rev (a :: pre)) = first_word (rev pre).
Proof.
  intros H. simpl. destruct (rev pre) eqn:E; [| reflexivity].
  apply (f_equal (@rev ascii)) in E. rewrite rev_involutive in E. now simpl in E.
Qed.

Lemma rename_runs_before pre : forall run post,
  first_word (rev pre) = false ->
  (pre = [] -> run = []) ->
  rename_runs old new run (pre ++ post)
  = rename_runs old new run pre ++ rename_runs old new [] post.
Proof.
  induction pre as [| a pre IH]; intros run post Hend Hrun.
  - rewrite Hrun by reflexivity. reflexivity.
  - cbn [app rename_runs].
    destruct pre as [| b pre'].
    + simpl in Hend. rewrite Hend. cbn [app rename_runs].
      rewrite <- app_assoc. reflexivity.
    + rewrite first_word_rev_cons in Hend by discriminate.
      destruct (is_word a).
      * apply IH; [assumption | discriminate].
      * rewrite <- app_assoc. cbn [app]. do 2 f_equal.
        apply IH; [assumption | discriminate].
Qed.

Lemma rename_runs_other_word pre u post :
  first_word (rev pre) = false ->
  Forall (fun a => is_word a = true) u -> u <> [] -> u <> old ->
  first_word post = false ->
  rename_runs old new [] (pre ++ u ++ post)
  = rename_runs old new [] pre ++ u ++ rename_runs old new [] post.
Proof.
  intros Hpre Hu Hne Hold Hpost.
  rewrite rename_runs_before by auto.
  rewrite rename_runs_span, written_rev by assumption.
  now rewrite bool_decide_eq_false_2.
Qed.

End WordRenaming.

(** ** From character lists back to strings *)

Lemma chars_text l : chars (text l) = l.
Proof. apply list_ascii_of_string_of_list_ascii. Qed.

Lemma text_chars s : text (chars s) = s.
Proof. apply string_of_list_ascii_of_string. Qed.

Lemma chars_app a b : chars (a +:+ b) = chars a ++ chars b.
Proof.
  induction a as [| c a IH]; [reflexivity |].
  change (String c a +:+ b) with (String c (a +:+ b)). simpl. now rewrite IH.
Qed.

Lemma text_app l1 l2 : text (l1 ++ l2) = text l1 +:+ text l2.
Proof. induction l1 as [| c l1 IH]; simpl; [reflexivity | now rewrite IH]. Qed.

(** With a single entry in the variable mapping, whose two names are made
    of word characters and differ, applying the mapping is renaming word by
    word. *)
Lemma apply_single_mapping self o n content :
  variable_mappings self = [(o, n)] ->
  chars o <> [] ->
  Forall (fun a => is_word a = true) (chars o) ->
  Forall (fun a => is_word a = true) (chars n) ->
  chars n <> chars o ->
  _apply_variable_mappings self content = rename_words o n content.
Proof.
  intros Hmap Hne Ho Hn Hdiff.
  unfold _apply_variable_mappings. rewrite Hmap.
  cbn [items fold_left variable_patterns]. unfold re_sub.
  rewrite !chars_text. unfold rename_words. f_equal.
  now apply (three_patterns_rename (chars o) (chars n)).
Qed.

(** C8: with the single mapping of [user_name] to [username], the content
    [Hello {{ user_name }}, role: {{ role }}] becomes
    [Hello {{ username }}, role: {{ role }}].  For every content the result
    is the content with each maximal word equal to [user_name] replaced by
    [username] and all else copied; so a longer identifier such as
    [user_name_full], standing between texts that do not extend it, is
    copied as it is. *)
Theorem user_name_mapping_respects_word_boundaries self :
  variable_mappings self = [("user_name", "username")] ->
  _apply_variable_mappings self "Hello {{ user_name }}, role: {{ role }}"
  = "Hello {{ username }}, role: {{ role }}"
  /\ (forall content,
        _apply_variable_mappings self content
        = rename_words "user_name" "username" content)
  /\ (forall before after,
        ends_outside_word before = true ->
        starts_outside_word after = true ->
        _apply_variable_mappings self (before +:+ "user_name_full" +:+ after)
        = _apply_variable_mappings self before
          +:+ "user_name_full"
          +:+ _apply_variable_mappings self after).
Proof.
  intros Hmap.
  assert (forall content,
            _apply_variable_mappings self content
            = rename_words "user_name" "username" content) as Hall.
  { intros content. apply apply_single_mapping; try assumption.
    - discriminate.
    - apply (bool_decide_unpack _). vm_compute. exact I.
    - apply (bool_decide_unpack _). vm_compute. exact I.
    - discriminate. }
  split; [| split].
  - rewrite Hall. vm_compute. reflexivity.
  - exact Hall.
  - intros before after Hb Ha. rewrite !Hall. unfold rename_words.
    rewrite !chars_app.
    rewrite (rename_runs_other_word (chars "user_name") (chars "username")).
    + now rewrite !text_app, text_chars.
    + now apply negb_true_iff in Hb.
    + apply (bool_decide_unpack _). vm_compute. exact I.
    + discriminate.
    + discriminate.
    + now apply negb_true_iff in Ha.
Qed.

Lemma user_name_mapping_respects_word_boundaries_witness :
  let self := with_variable_mappings [("user_name", "username")] (init sample_config) in
  _apply_variable_mappings self "Hello {{ user_name }}, role: {{ role }}"
  = "Hello {{ username }}, role: {{ role }}"
  /\ (forall content,
        _apply_variable_mappings self content
        = rename_words "user_name" "username" content)
  /\ (forall before after,
        ends_outside_word before = true ->
        starts_outside_word after = true ->
        _apply_variable_mappings self (before +:+ "user_name_full" +:+ after)
        = _apply_variable_mappings self before
          +:+ "user_name_full"
          +:+ _apply_variable_mappings self after).
Proof.
  apply (user_name_mapping_respects_word_boundaries
           (with_variable_mappings [("user_name", "username")] (init sample_config))).
  reflexivity.
Defined.

(** ** An opening directive without a closing one *)

Lemma contains_chars_false w l :
  contains_chars w l = false ->
  forall pre post, l = pre ++ post -> strip_prefix w post = None.
Proof.
  intros H pre. revert l H. induction pre as [| a pre IH]; intros l H post ->.
  - simpl in H. destruct post; simpl in H; now destruct (strip_prefix w _).
  - apply (IH (pre ++ post)); [| reflexivity].
    simpl in H. now destruct (strip_prefix w (a :: pre ++ post)).
Qed.

Lemma pieces_no_match r rs : forall sn,
  (forall pre post, rs = pre ++ post -> match_here r false (rev pre ++ sn) post = None) ->
  pieces r sn rs 0 = map Keep rs.
Proof.
  induction rs as [| a t IH]; intros sn H.
  - rewrite pieces_miss_end; [reflexivity |]. apply (H [] []). reflexivity.
  - rewrite pieces_miss by (apply (H [] (a :: t)); reflexivity).
    simpl. f_equal. apply IH. intros pre post E.
    specialize (H (a :: pre) post). simpl in H. rewrite <- app_assoc in H.
    apply H. now rewrite E.
Qed.

Section Ahead.

Implicit Types (cu : cursor) (k : cursor -> option cursor).




End Ahead.






(** * Further properties of the pipeline *)

Import Orchestrator.

(** ** What one template may change *)

Section TemplateEffects.

Variable env : environment.
Implicit Types (self : JinjaMigrator) (w : world) (p : string).

Lemma template_mapping_prompts p self w r self1 w1 :
  _interactive_template_mapping env p self w = (r, self1, w1) ->
  prompts w <= prompts w1
  /\ discovered_variables self1 = discovered_variables self
  /\ discovered_blocks self1 = discovered_blocks self.
Proof.
  unfold _interactive_template_mapping.
  destruct (get p (template_mappings self)) as [t |].
  - intros [= <- <- <-]. repeat split; lia.
  - destruct (operator env (prompts w)); intros [= <- <- <-]; simpl; repeat split; lia.
Qed.

(** Whatever the way through: files are kept or added, never removed; the
    discovered sets and the number of prompts only grow. *)
Lemma outcome_world p self w ok self' w' :
  outcome env p self w (ok, self', w') ->
  (forall q, mem q (target_files w) = true -> mem q (target_files w') = true)
  /\ discovered_variables self ⊆ discovered_variables self'
  /\ discovered_blocks self ⊆ discovered_blocks self'
  /\ prompts w <= prompts w'.
Proof.
  intros H.
  inversion H as [Hex | s1 w1 Hex Hmap | t s1 w1 Hex Hmap Hl
                  | t s1 w1 template Hex Hmap Hl]; subst.
  - repeat split; auto.
  - pose proof (template_mapping_prompts _ _ _ _ _ _ Hmap) as (P1 & D1 & D2).
    apply template_mapping_spec in Hmap as (_ & _ & F1 & _).
    rewrite F1, D1, D2. repeat split; auto.
  - pose proof (template_mapping_prompts _ _ _ _ _ _ Hmap) as (P1 & D1 & D2).
    apply template_mapping_spec in Hmap as (_ & _ & F1 & _).
    rewrite F1, D1, D2. repeat split; auto.
  - pose proof (template_mapping_prompts _ _ _ _ _ _ Hmap) as (P1 & D1 & D2).
    apply template_mapping_spec in Hmap as (_ & _ & F1 & _).
    rewrite F1, D1, D2. repeat split; auto.
Qed.

End TemplateEffects.

(** X1: a template for which [migrate_template] returns [False] leaves the
    migration log and the target files as they were, and the configuration
    and the variable and block mappings too. *)
Theorem failed_template_leaves_no_trace env p self w ok self' w' :
  migrate_template env p self w = (ok, self', w') ->
  ok = false ->
  migration_log self' = migration_log self
  /\ target_files w' = target_files w
  /\ same_setup self self'.
Proof.
  intros E ->. pose proof (migrate_template_outcome env p self w) as H. rewrite E in H.
  inversion H as [Hex | s1 w1 Hex Hmap | t s1 w1 Hex Hmap Hl
                  | t s1 w1 template Hex Hmap Hl]; subst.
  - apply template_mapping_spec in Hmap as (S1 & L1 & F1 & _). auto.
  - apply template_mapping_spec in Hmap as (S1 & L1 & F1 & _). auto.
Qed.

Lemma failed_template_leaves_no_trace_witness :
  exists self' w',
    migrate_template (unattended two_of_three) "broken.html" (init sample_config) fresh_world
      = (false, self', w')
    /\ migration_log self' = []
    /\ target_files w' = []
    /\ same_setup (init sample_config) self'.
Proof.
  destruct (migrate_template (unattended two_of_three) "broken.html"
              (init sample_config) fresh_world) as [[ok self'] w'] eqn:E.
  assert (ok = false) as Hok by (vm_compute in E; congruence).
  exists self', w'. subst ok. split; [reflexivity |].
  exact (failed_template_leaves_no_trace _ _ _ _ _ _ _ E eq_refl).
Defined.

(** ** What a batch may change *)

Section BatchInvariants.

Variable env : environment.
Variable auto : bool.
Implicit Types (self : JinjaMigrator) (w : world) (p : string).

(** A relation between the state before and after that holds across the
    automatic path assignment and across every way through
    [migrate_template] holds across the loop. *)
Lemma migrate_all_related (R : JinjaMigrator * world -> JinjaMigrator * world -> Prop) :
  (forall x, R x x) ->
  (forall x y z, R x y -> R y z -> R x z) ->
  (forall p self w, R (self, w) (preset auto p self, w)) ->
  (forall p self w ok self' w',
     outcome env p self w (ok, self', w') -> R (self, w) (self', w')) ->
  forall templates self w t0,
    R (self, w) (snd (fst (migrate_all env auto templates self w t0)),
                 snd (migrate_all env auto templates self w t0)).
Proof.
  intros Hrefl Htrans Hpre Hstep templates.
  induction templates as [| p more IH]; intros self w t0.
  - apply Hrefl.
  - cbn [migrate_all].
    pose proof (migrate_template_outcome env p (preset auto p self) w) as Hout.
    destruct (migrate_template env p (preset auto p self) w) as [[ok self1] w1].
    apply Hstep in Hout.
    eapply Htrans; [apply Hpre |]. eapply Htrans; [exact Hout |].
    destruct ok; apply IH.
Qed.


End BatchInvariants.

(** X2: across a whole batch the configuration and the variable and block
    mappings stay as they were when the batch started, no file of the target
    tree is removed, and the discovered variables and blocks only grow. *)
Theorem batch_keeps_setup_and_files env auto templates self w :
  let self' := snd (fst (run_migration env auto templates self w)) in
  let w' := snd (run_migration env auto templates self w) in
  same_setup self self'
  /\ (forall q, mem q (target_files w) = true -> mem q (target_files w') = true)
  /\ discovered_variables self ⊆ discovered_variables self'
  /\ discovered_blocks self ⊆ discovered_blocks self'.
Proof.
  unfold run_migration.
  apply (migrate_all_related env auto
           (fun x y =>
              same_setup (fst x) (fst y)
              /\ (forall q, mem q (target_files (snd x)) = true ->
                            mem q (target_files (snd y)) = true)
              /\ discovered_variables (fst x) ⊆ discovered_variables (fst y)
              /\ discovered_blocks (fst x) ⊆ discovered_blocks (fst y))).
  - intros [s0 w0]. split; [apply same_setup_refl |]. repeat split; auto.
  - intros [s0 w0] [s1 w1] [s2 w2] (A1 & A2 & A3 & A4) (B1 & B2 & B3 & B4).
    split; [eapply same_setup_trans; eauto |].
    split; [auto |]. split; set_solver.
  - intros p s0 w0. simpl. split; [apply preset_same_setup |].
    unfold preset. destruct auto; repeat split; auto.
  - intros p s0 w0 ok s1 w1 Hout. simpl.
    pose proof (outcome_frame env _ _ _ _ _ _ Hout) as (S & _).
    pose proof (outcome_world env _ _ _ _ _ _ Hout) as (F & D1 & D2 & _).
    auto.
Qed.



(** ** The automatic mode of the loop *)

Section AutoMode.

Variable env : environment.
Implicit Types (self : JinjaMigrator) (w : world) (p : string).

(** With the path assigned beforehand nothing is asked, and what is logged
    is logged under the suggested path. *)
Lemma auto_step p self w ok self' w' :
  outcome env p (preset true p self) w (ok, self', w') ->
  prompts w' = prompts w
  /\ template_mappings self'
     = set p (_suggest_template_path p) (template_mappings self)
  /\ exists entries,
       migration_log self' = migration_log self ++ entries
       /\ Forall (fun e => log_source e = p
                           /\ log_target e = _suggest_template_path p) entries.
Proof.
  intros H.
  assert (forall r s1 w1,
            _interactive_template_mapping env p (preset true p self) w = (r, s1, w1) ->
            r = Some (_suggest_template_path p) /\ s1 = preset true p self /\ w1 = w) as Hm.
  { intros r s1 w1 Hmap. apply template_mapping_spec in Hmap as (_ & _ & _ & Hcase).
    simpl in Hcase. rewrite get_set_eq in Hcase. exact Hcase. }
  inversion H as [Hex | s1 w1 Hex Hmap | t s1 w1 Hex Hmap Hl
                  | t s1 w1 template Hex Hmap Hl]; subst.
  - repeat split. exists []. rewrite app_nil_r. split; [reflexivity | constructor].
  - apply Hm in Hmap as (Hr & _). discriminate.
  - apply Hm in Hmap as (_ & -> & ->).
    repeat split. exists []. rewrite app_nil_r. split; [reflexivity | constructor].
  - apply Hm in Hmap as (_ & -> & ->).
    repeat split. exists []. rewrite app_nil_r. split; [reflexivity | constructor].
Qed.

Lemma get_suggested templates : forall (m : dict string) p,
  get p (fold_left (fun m q => set q (_suggest_template_path q) m) templates m)
  = if bool_decide (p ∈ templates) then Some (_suggest_template_path p) else get p m.
Proof.
  induction templates as [| q more IH]; intros m p.
  - reflexivity.
  - cbn [fold_left]. rewrite IH.
    case_bool_decide as H1; case_bool_decide as H2; try reflexivity.
    + exfalso. apply H2. now right.
    + apply elem_of_cons in H2 as [-> | H2]; [apply get_set_eq | contradiction].
    + apply get_set_ne. intros ->. apply H2. now left.
Qed.

Lemma auto_run templates : forall self w t0,
  let r := migrate_all env true templates self w t0 in
  prompts (snd r) = prompts w
  /\ template_mappings (snd (fst r))
     = fold_left (fun m q => set q (_suggest_template_path q) m)
                 templates (template_mappings self)
  /\ exists entries,
       migration_log (snd (fst r)) = migration_log self ++ entries
       /\ Forall (fun e => log_source e ∈ templates
                           /\ log_target e = _suggest_template_path (log_source e))
                 entries.
Proof.
  induction templates as [| p more IH]; intros self w t0.
  - simpl. repeat split. exists []. rewrite app_nil_r. split; [reflexivity | constructor].
  - cbn zeta. cbn [migrate_all fold_left].
    pose proof (migrate_template_outcome env p (preset true p self) w) as Hout.
    destruct (migrate_template env p (preset true p self) w) as [[ok self1] w1].
    apply auto_step in Hout as (P1 & T1 & e1 & L1 & F1).
    assert (forall t1,
              let r := migrate_all env true more self1 w1 t1 in
              prompts (snd r) = prompts w
              /\ template_mappings (snd (fst r))
                 = fold_left (fun m q => set q (_suggest_template_path q) m) more
                     (set p (_suggest_template_path p) (template_mappings self))
              /\ exists entries,
                   migration_log (snd (fst r)) = migration_log self ++ entries
                   /\ Forall (fun e => log_source e ∈ p :: more
                                       /\ log_target e
                                          = _suggest_template_path (log_source e))
                             entries) as Hrest.
    { intros t1. destruct (IH self1 w1 t1) as (P2 & T2 & e2 & L2 & F2).
      cbn zeta. rewrite P2, T2, L2, P1, T1, L1. repeat split.
      exists (e1 ++ e2). split; [now rewrite app_assoc |].
      apply Forall_app. split.
      - eapply Forall_impl; [exact F1 |]. intros e (-> & ->). split; [now left | reflexivity].
      - eapply Forall_impl; [exact F2 |]. intros e (Hin & Ht). split; [now right | assumption]. }
    destruct ok; apply Hrest.
Qed.

End AutoMode.

(** X4: with [--auto] the migration loop asks the operator nothing; after
    it every template of the batch is mapped to its suggested path, and
    every entry the batch adds to the log is for a template of the batch,
    under its suggested path. *)
Theorem auto_mode_uses_suggestions env templates self w :
  let self' := snd (fst (run_migration env true templates self w)) in
  let w' := snd (run_migration env true templates self w) in
  prompts w' = prompts w
  /\ (forall p, p ∈ templates ->
        get p (template_mappings self') = Some (_suggest_template_path p))
  /\ exists entries,
       migration_log self' = migration_log self ++ entries
       /\ Forall (fun e => log_source e ∈ templates
                           /\ log_target e = _suggest_template_path (log_source e))
                 entries.
Proof.
  unfold run_migration. cbn zeta.
  destruct (auto_run env templates self w {| successful := 0; failed := 0 |})
    as (P & T & entries & L & F).
  split; [exact P |]. split.
  - intros p Hin. rewrite T, get_suggested. now rewrite bool_decide_eq_true_2.
  - now exists entries.
Qed.

(** ** Target paths are remembered *)

(** X5: once [_interactive_template_mapping] has returned a target path for
    a template, every later call for that template returns the same path
    without asking and without changing anything, whoever the operator is;
    a template that was skipped is not recorded and stays unmapped. *)
Theorem template_mapping_is_remembered env p self w r self1 w1 :
  _interactive_template_mapping env p self w = (r, self1, w1) ->
  match r with
  | Some target =>
      forall env' w2,
        _interactive_template_mapping env' p self1 w2 = (Some target, self1, w2)
  | None => self1 = self /\ get p (template_mappings self1) = None
  end.
Proof.
  unfold _interactive_template_mapping at 1.
  destruct (get p (template_mappings self)) as [t |] eqn:E.
  - intros [= <- <- <-]. intros env' w2.
    unfold _interactive_template_mapping. now rewrite E.
  - destruct (operator env (prompts w)); intros [= <- <- <-];
      try (intros env' w2; unfold _interactive_template_mapping; simpl;
           now rewrite get_set_eq).
    auto.
Qed.

Lemma template_mapping_is_remembered_witness :
  (forall env' w2,
     _interactive_template_mapping env' "reports.html"
       (with_template_mappings [("reports.html", "pages/reports.html")] (init sample_config)) w2
     = (Some "pages/reports.html",
        with_template_mappings [("reports.html", "pages/reports.html")] (init sample_config),
        w2))
  /\ get "reports.html" (template_mappings (init sample_config)) = None.
Proof.
  split.
  - exact (template_mapping_is_remembered (unattended []) "reports.html"
             (init sample_config) fresh_world (Some "pages/reports.html")
             (with_template_mappings [("reports.html", "pages/reports.html")]
                (init sample_config))
             {| target_files := empty; prompts := 1 |} eq_refl).
  - exact (proj2 (template_mapping_is_remembered (reluctant []) "reports.html"
                    (init sample_config) fresh_world None (init sample_config)
                    {| target_files := empty; prompts := 1 |} eq_refl)).
Defined.

(** ** The automatic passes, run again *)

Section FillAgain.

Context {V : Type}.

Lemma set_same (d : dict V) k v : get k d = Some v -> set k v d = d.
Proof.
  induction d as [| [k0 v0] d IH]; simpl; [discriminate |].
  destruct (String.eqb k0 k) eqn:E.
  - now intros [= ->].
  - intros H. now rewrite IH.
Qed.

End FillAgain.

Lemma get_of_entry (table : dict string) k v :
  NoDup (keys table) -> (k, v) ∈ table -> get k table = Some v.
Proof.
  induction table as [| [k0 v0] table IH]; intros Hnd Hin.
  - now apply elem_of_nil in Hin.
  - simpl in *. apply NoDup_cons in Hnd as [Hk0 Hnd].
    apply elem_of_cons in Hin as [[= -> ->] | Hin].
    + now rewrite String.eqb_refl.
    + destruct (String.eqb k0 k) eqn:E; [| now apply IH].
      apply String.eqb_eq in E. subst k0. exfalso. apply Hk0.
      unfold keys. apply list_elem_of_In. apply (in_map fst _ (k, v)).
      now apply list_elem_of_In.
Qed.

(** A store that already holds the table's value for every discovered key
    of the table is left as it is. *)
Lemma fold_fill_settled discovered (table : dict string) (m : dict string) :
  Forall (fun kv => fst kv ∈ discovered -> get (fst kv) m = Some (snd kv)) table ->
  fold_left (fill discovered) table m = m.
Proof.
  induction 1 as [| [k v] table H _ IH]; [reflexivity |].
  cbn [fold_left]. simpl in H.
  assert (fill discovered m (k, v) = m) as ->; [| exact IH].
  unfold fill. simpl. case_bool_decide; [| reflexivity]. now apply set_same, H.
Qed.

Lemma fold_fill_again discovered (table : dict string) (m : dict string) :
  NoDup (keys table) ->
  fold_left (fill discovered) table (fold_left (fill discovered) table m)
  = fold_left (fill discovered) table m.
Proof.
  intros Hnd. apply fold_fill_settled.
  apply Forall_forall. intros [k v] Hin Hd. simpl in *.
  apply get_fold_fill_discovered; auto using get_of_entry.
Qed.

Lemma with_variable_mappings_same self :
  with_variable_mappings (variable_mappings self) self = self.
Proof. now destruct self. Qed.

Lemma with_block_mappings_same self :
  with_block_mappings (block_mappings self) self = self.
Proof. now destruct self. Qed.

Lemma auto_map_variables_eq self :
  _auto_map_variables self
  = with_variable_mappings
      (fold_left (fill (discovered_variables self)) auto_mappings (variable_mappings self))
      self.
Proof.
  unfold _auto_map_variables, items.
  generalize auto_mappings as table. intros table. revert self.
  induction table as [| [old_var new_var] table IH]; intros self.
  - simpl. now rewrite with_variable_mappings_same.
  - cbn [fold_left].
    assert (fill (discovered_variables self) (variable_mappings self) (old_var, new_var)
            = if bool_decide (old_var ∈ discovered_variables self)
              then set old_var new_var (variable_mappings self)
              else variable_mappings self) as -> by reflexivity.
    case_bool_decide; rewrite IH; reflexivity.
Qed.

Lemma auto_map_blocks_eq self :
  auto_map_blocks self
  = with_block_mappings
      (fold_left (fill (discovered_blocks self)) auto_block_mappings (block_mappings self))
      self.
Proof.
  unfold auto_map_blocks, items.
  generalize auto_block_mappings as table. intros table. revert self.
  induction table as [| [old_block new_block] table IH]; intros self.
  - simpl. now rewrite with_block_mappings_same.
  - cbn [fold_left].
    assert (fill (discovered_blocks self) (block_mappings self) (old_block, new_block)
            = if bool_decide (old_block ∈ discovered_blocks self)
              then set old_block new_block (block_mappings self)
              else block_mappings self) as -> by reflexivity.
    case_bool_decide; rewrite IH; reflexivity.
Qed.

Lemma block_mapping_declined answer self :
  _interactive_block_mapping false answer self
  = if bool_decide (discovered_blocks self = ∅) then self
    else if auto_preserve_blocks (config self) then auto_map_blocks self else self.
Proof.
  unfold _interactive_block_mapping. case_bool_decide; [reflexivity |].
  now destruct (auto_preserve_blocks (config self)).
Qed.

(** X6: the automatic passes are idempotent: running [_auto_map_variables]
    a second time changes nothing, and so does running
    [_interactive_block_mapping] a second time when the operator declines to
    customise. *)
Theorem auto_passes_idempotent self answer answer' :
  _auto_map_variables (_auto_map_variables self) = _auto_map_variables self
  /\ _interactive_block_mapping false answer' (_interactive_block_mapping false answer self)
     = _interactive_block_mapping false answer self.
Proof.
  split.
  - rewrite (auto_map_variables_eq (_auto_map_variables self)).
    rewrite (auto_map_variables_eq self).
    cbn [with_variable_mappings discovered_variables variable_mappings].
    now rewrite fold_fill_again by apply auto_mappings_keys_distinct.
  - rewrite (block_mapping_declined answer self).
    case_bool_decide as Hd.
    { rewrite block_mapping_declined. now rewrite bool_decide_eq_true_2. }
    destruct (auto_preserve_blocks (config self)) eqn:Ha.
    + rewrite block_mapping_declined.
      pose proof (auto_map_blocks_eq self) as E.
      set (s1 := auto_map_blocks self) in *.
      assert (discovered_blocks s1 = discovered_blocks self) as Hd1 by (now rewrite E).
      assert (config s1 = config self) as Hc1 by (now rewrite E).
      assert (block_mappings s1
              = fold_left (fill (discovered_blocks self)) auto_block_mappings
                          (block_mappings self)) as Hb1 by (now rewrite E).
      rewrite Hd1, Hc1, Ha. rewrite bool_decide_eq_false_2 by assumption.
      rewrite (auto_map_blocks_eq s1), Hd1, Hb1.
      rewrite fold_fill_again by apply auto_block_mappings_keys_distinct.
      rewrite <- Hb1. apply with_block_mappings_same.
    + rewrite block_mapping_declined.
      rewrite bool_decide_eq_false_2 by assumption. now rewrite Ha.
Qed.

(** ** The operator's passes *)

Lemma elem_of_sorted (s : gset string) k : k ∈ sorted s <-> k ∈ s.
Proof. unfold sorted. rewrite merge_sort_Permutation. apply elem_of_elements. Qed.

Lemma NoDup_sorted (s : gset string) : NoDup (sorted s).
Proof. unfold sorted. rewrite merge_sort_Permutation. apply NoDup_elements. Qed.

Section ManualVariables.

Variable answer : string -> string.

Lemma manual_variables_fold names : forall self,
  let r := fold_left
             (fun s var =>
                let new_name := answer var in
                if nonempty new_name && negb (String.eqb new_name var)
                then with_variable_mappings (set var new_name (variable_mappings s)) s
                else s) names self in
  variable_mappings r = fold_left (rename_step answer) names (variable_mappings self)
  /\ same_setup_but_variables self r.
Proof.
  induction names as [| var names IH]; intros self.
  - simpl. repeat split.
  - cbn zeta. cbn [fold_left]. unfold rename_step at 2, renamed.
    destruct (nonempty (answer var) && negb (String.eqb (answer var) var)).
    + destruct (IH (with_variable_mappings (set var (answer var) (variable_mappings self)) self))
        as (H1 & H2). cbn zeta in H1, H2. rewrite H1. split; [reflexivity |].
      destruct H2 as (A & B & C & D & E & F). repeat split; assumption.
    + apply IH.
Qed.

Lemma get_rename_step m var k :
  get k (rename_step answer m var)
  = if String.eqb var k && renamed answer var then Some (answer var) else get k m.
Proof.
  unfold rename_step. destruct (renamed answer var).
  - rewrite get_set. now rewrite andb_true_r.
  - now rewrite andb_false_r.
Qed.

Lemma get_rename_steps names : forall m k,
  get k (fold_left (rename_step answer) names m)
  = if bool_decide (k ∈ names) && renamed answer k then Some (answer k) else get k m.
Proof.
  induction names as [| var names IH]; intros m k.
  - reflexivity.
  - cbn [fold_left]. rewrite IH, get_rename_step.
    destruct (String.eqb_spec var k) as [-> | Hne].
    + rewrite (bool_decide_eq_true_2 (k ∈ k :: names)) by (now left).
      destruct (renamed answer k); [| now rewrite !andb_false_r].
      now rewrite !andb_true_r; destruct (bool_decide (k ∈ names)).
    + simpl.
      assert (bool_decide (k ∈ var :: names) = bool_decide (k ∈ names)) as ->; [| reflexivity].
      apply bool_decide_ext. rewrite elem_of_cons. intuition congruence.
Qed.

End ManualVariables.

(** X7: with automatic variable mapping configured,
    [_interactive_variable_mapping] is the automatic pass and the operator
    is not consulted.  Without it, the variable mapping afterwards gives a
    variable the name the operator entered exactly when the operator agreed
    to rename, the variable has been discovered and the entry is neither
    empty nor the variable's own name, whatever the variable was mapped to
    before; every other key keeps its mapping, and nothing but the variable
    mapping changes. *)
Theorem manual_variable_pass_overrides confirm answer self :
  (auto_map_variables (config self) = true ->
   _interactive_variable_mapping confirm answer self = _auto_map_variables self)
  /\ (auto_map_variables (config self) = false ->
      (forall k,
         get k (variable_mappings (_interactive_variable_mapping confirm answer self))
         = if confirm && bool_decide (k ∈ discovered_variables self) && renamed answer k
           then Some (answer k)
           else get k (variable_mappings self))
      /\ same_setup_but_variables self (_interactive_variable_mapping confirm answer self)).
Proof.
  split; intros Ha; unfold _interactive_variable_mapping; rewrite Ha.
  - now rewrite orb_true_r.
  - rewrite orb_false_r.
    case_bool_decide as Hd.
    { split; [| repeat split]. intros k.
      rewrite (bool_decide_eq_false_2 (k ∈ discovered_variables self))
        by (rewrite Hd; apply not_elem_of_empty).
      now rewrite andb_false_r. }
    destruct confirm; cbn [negb andb].
    + destruct (manual_variables_fold answer (sorted (discovered_variables self)) self)
        as (Hv & Hs).
      split; [| exact Hs]. intros k. cbn zeta in Hv. rewrite Hv, get_rename_steps.
      assert (bool_decide (k ∈ sorted (discovered_variables self))
              = bool_decide (k ∈ discovered_variables self)) as ->; [| reflexivity].
      apply bool_decide_ext, elem_of_sorted.
    + split; [reflexivity | repeat split].
Qed.

Lemma manual_variable_pass_overrides_witness :
  get "user_name"
      (variable_mappings
         (_interactive_variable_mapping true (fun _ => "account") with_overrides))
  = Some "account"
  /\ _interactive_variable_mapping true (fun _ => "account") with_auto_variables
     = _auto_map_variables with_auto_variables.
Proof.
  split.
  - rewrite (proj1 (proj2 (manual_variable_pass_overrides true (fun _ => "account")
                             with_overrides) eq_refl) "user_name").
    vm_compute. reflexivity.
  - exact (proj1 (manual_variable_pass_overrides true (fun _ => "account")
                    with_auto_variables) eq_refl).
Defined.

Section ManualBlocks.

Variable answer : string -> string -> string.

Lemma manual_blocks_fold names : forall self,
  let r := fold_left
             (fun s block =>
                let current_mapping := get_default block block (block_mappings s) in
                let new_name := answer block current_mapping in
                if negb (String.eqb new_name block)
                then with_block_mappings (set block new_name (block_mappings s)) s
                else s) names self in
  block_mappings r = fold_left (customise_step answer) names (block_mappings self)
  /\ same_setup_but_blocks self r.
Proof.
  induction names as [| block names IH]; intros self.
  - simpl. repeat split.
  - cbn zeta. cbn [fold_left]. unfold customise_step at 2.
    destruct (negb (String.eqb (answer block (get_default block block (block_mappings self)))
                               block)).
    + destruct (IH (with_block_mappings
                      (set block (answer block (get_default block block (block_mappings self)))
                           (block_mappings self)) self)) as (H1 & H2).
      cbn zeta in H1, H2. rewrite H1. split; [reflexivity |].
      destruct H2 as (A & B & C & D & E & F). repeat split; assumption.
    + apply IH.
Qed.

Lemma get_customise_step m block k :
  get k (customise_step answer m block)
  = if String.eqb block k
       && negb (String.eqb (answer block (get_default block block m)) block)
    then Some (answer block (get_default block block m))
    else get k m.
Proof.
  unfold customise_step.
  destruct (negb (String.eqb (answer block (get_default block block m)) block)).
  - rewrite get_set. now rewrite andb_true_r.
  - now rewrite andb_false_r.
Qed.

Lemma get_customise_steps names : forall m k,
  NoDup names ->
  get k (fold_left (customise_step answer) names m)
  = if bool_decide (k ∈ names)
       && negb (String.eqb (answer k (get_default k k m)) k)
    then Some (answer k (get_default k k m))
    else get k m.
Proof.
  induction names as [| block names IH]; intros m k Hnd.
  - reflexivity.
  - apply NoDup_cons in Hnd as [Hb Hnd].
    cbn [fold_left]. rewrite IH by assumption.
    destruct (String.eqb_spec block k) as [-> | Hne].
    + rewrite (bool_decide_eq_false_2 (k ∈ names)) by assumption.
      rewrite (bool_decide_eq_true_2 (k ∈ k :: names)) by (now left).
      cbn [andb]. rewrite get_customise_step. now rewrite String.eqb_refl.
    + assert (get k (customise_step answer m block) = get k m) as Hget.
      { rewrite get_customise_step. apply String.eqb_neq in Hne. now rewrite Hne. }
      unfold get_default at 1 2. rewrite Hget. fold (get_default k k m).
      assert (bool_decide (k ∈ block :: names) = bool_decide (k ∈ names)) as ->; [| reflexivity].
      apply bool_decide_ext. rewrite elem_of_cons. intuition congruence.
Qed.

End ManualBlocks.

(** X8: when the operator customises the block mappings, a discovered block
    for which the operator enters something other than the block's own name
    is mapped to that entry, whatever the automatic pass or an earlier
    mapping gave it; for every other key, and for a block whose own name is
    entered, the mapping is the one in force after the automatic part, so
    entering a block's own name does not remove its mapping.  Nothing but
    the block mapping changes. *)
Theorem block_customisation_overrides answer self :
  let after_auto := _interactive_block_mapping false answer self in
  (forall k,
     let current := get_default k k (block_mappings after_auto) in
     get k (block_mappings (_interactive_block_mapping true answer self))
     = if bool_decide (k ∈ discovered_blocks self)
          && negb (String.eqb (answer k current) k)
       then Some (answer k current)
       else get k (block_mappings after_auto))
  /\ same_setup_but_blocks self (_interactive_block_mapping true answer self).
Proof.
  cbn zeta. rewrite block_mapping_declined. unfold _interactive_block_mapping.
  case_bool_decide as Hd.
  { split; [| repeat split]. intros k.
    now rewrite (bool_decide_eq_false_2 (k ∈ discovered_blocks self))
      by (rewrite Hd; apply not_elem_of_empty). }
  cbn [negb].
  set (self1 := if auto_preserve_blocks (config self) then auto_map_blocks self else self).
  assert (same_setup_but_blocks self self1) as Hs1.
  { unfold self1. destruct (auto_preserve_blocks (config self)); [| repeat split].
    rewrite auto_map_blocks_eq. repeat split. }
  destruct (manual_blocks_fold answer (sorted (discovered_blocks self1)) self1) as (Hb & Hs).
  cbn zeta in Hb, Hs. split.
  - intros k. rewrite Hb, get_customise_steps by apply NoDup_sorted.
    assert (bool_decide (k ∈ sorted (discovered_blocks self1))
            = bool_decide (k ∈ discovered_blocks self)) as ->; [| reflexivity].
    apply bool_decide_ext. rewrite elem_of_sorted.
    destruct Hs1 as (_ & _ & _ & _ & _ & ->). reflexivity.
  - destruct Hs1 as (A1 & A2 & A3 & A4 & A5 & A6).
    destruct Hs as (B1 & B2 & B3 & B4 & B5 & B6).
    repeat split; congruence.
Qed.

(** ** Analysis *)

(** X9: [analyze_all_templates] never changes the migrator, so it adds
    nothing to the discovered variables and blocks.  It returns exactly when
    every template of the list is excluded or cannot be loaded; when some
    template of the list is not excluded and can be loaded, the
    [AttributeError] that [_extract_template_info] raises for the first of
    them leaves the method. *)
Theorem analysis_raises_on_loaded_template env templates self :
  snd (analyze_all_templates env templates self) = self
  /\ (fst (analyze_all_templates env templates self) = Returned tt
      <-> forall p, p ∈ templates -> _should_exclude self p = true \/ loader env p = None)
  /\ (fst (analyze_all_templates env templates self) = Raised AttributeError
      <-> exists p t, p ∈ templates /\ _should_exclude self p = false
                      /\ loader env p = Some t).
Proof.
  induction templates as [| q more (IH1 & IH2 & IH3)].
  - simpl. split; [reflexivity |]. split.
    + split; [| reflexivity]. intros _ p Hp. now apply elem_of_nil in Hp.
    + split; [discriminate |]. intros (p & t & Hp & _). now apply elem_of_nil in Hp.
  - cbn [analyze_all_templates]. rewrite extract_template_info_spec.
    destruct (_should_exclude self q) eqn:Hex.
    + split; [exact IH1 |]. split.
      * rewrite IH2. split.
        -- intros H p Hp. apply elem_of_cons in Hp as [-> | Hp]; [now left | now apply H].
        -- intros H p Hp. apply H. now right.
      * rewrite IH3. split.
        -- intros (p & t & Hp & H). exists p, t. split; [now right | exact H].
        -- intros (p & t & Hp & Hx & Hl).
           apply elem_of_cons in Hp as [-> | Hp]; [congruence |]. now exists p, t.
    + destruct (loader env q) as [t |] eqn:Hl.
      * simpl. split; [reflexivity |]. split.
        -- split; [discriminate |]. intros H.
           destruct (H q ltac:(left)) as [H' | H']; congruence.
        -- split; [| reflexivity]. intros _. exists q, t. split; [left | auto].
      * split; [exact IH1 |]. split.
        -- rewrite IH2. split.
           ++ intros H p Hp.
              apply elem_of_cons in Hp as [-> | Hp]; [now right | now apply H].
           ++ intros H p Hp. apply H. now right.
        -- rewrite IH3. split.
           ++ intros (p & t & Hp & H). exists p, t. split; [now right | exact H].
           ++ intros (p & t & Hp & Hx & Hl').
              apply elem_of_cons in Hp as [-> | Hp]; [congruence |]. now exists p, t.
Qed.

(** ** Extracted blocks *)

Section Stripping.

Implicit Types (l : list ascii).

Lemma lstrip_chars_starts l : starts_with_space (lstrip_chars l) = false.
Proof.
  induction l as [| a l IH]; simpl; [reflexivity |].
  destruct (is_space a) eqn:E; [assumption | simpl; assumption].
Qed.

Lemma lstrip_chars_fixed l : starts_with_space l = false -> lstrip_chars l = l.
Proof. destruct l as [| a l]; simpl; [reflexivity |]. now intros ->. Qed.

Lemma lstrip_chars_split l :
  exists sp, l = sp ++ lstrip_chars l.
Proof.
  induction l as [| a l [sp IH]]; simpl.
  - now exists [].
  - destruct (is_space a); [| now exists []].
    exists (a :: sp). simpl. now f_equal.
Qed.

Lemma starts_with_space_app l l' :
  l <> [] -> starts_with_space (l ++ l') = starts_with_space l.
Proof. destruct l; [congruence | reflexivity]. Qed.

Lemma strip_chars_starts l : starts_with_space (strip_chars l) = false.
Proof.
  unfold strip_chars.
  pose proof (lstrip_chars_starts l) as Hfront.
  destruct (lstrip_chars_split (rev (lstrip_chars l))) as [sp Hsp].
  set (b := lstrip_chars (rev (lstrip_chars l))) in *.
  apply (f_equal (@rev ascii)) in Hsp. rewrite rev_involutive, rev_app_distr in Hsp.
  destruct (rev b) eqn:E; [reflexivity |].
  rewrite Hsp in Hfront. rewrite starts_with_space_app in Hfront by discriminate.
  exact Hfront.
Qed.

Lemma strip_chars_idempotent l : strip_chars (strip_chars l) = strip_chars l.
Proof.
  unfold strip_chars at 1.
  rewrite (lstrip_chars_fixed (strip_chars l)) by apply strip_chars_starts.
  unfold strip_chars. rewrite rev_involutive.
  rewrite (lstrip_chars_fixed (lstrip_chars _)) by apply lstrip_chars_starts.
  reflexivity.
Qed.

Lemma strip_idempotent s : strip (strip s) = strip s.
Proof. unfold strip. now rewrite chars_text, strip_chars_idempotent. Qed.

End Stripping.

Section Assignments.

Context {V : Type}.
Implicit Types (d : dict V) (kvs : list (string * V)).

Lemma keys_set d k v :
  keys (set k v d) = if mem k d then keys d else keys d ++ [k].
Proof.
  unfold mem, keys. induction d as [| [k0 v0] d IH]; simpl; [reflexivity |].
  destruct (String.eqb k0 k); simpl; [reflexivity |].
  rewrite IH. now destruct (get k d).
Qed.

Lemma mem_keys d k : mem k d = true <-> k ∈ keys d.
Proof.
  unfold mem, keys. induction d as [| [k0 v0] d IH]; simpl.
  - split; [discriminate | intros H; now apply elem_of_nil in H].
  - destruct (String.eqb_spec k0 k) as [-> | Hne].
    + split; [intros _; now left | reflexivity].
    + rewrite IH. rewrite elem_of_cons. intuition congruence.
Qed.

Lemma NoDup_keys_set d k v : NoDup (keys d) -> NoDup (keys (set k v d)).
Proof.
  intros H. rewrite keys_set. destruct (mem k d) eqn:E; [assumption |].
  apply NoDup_app. split; [assumption |]. split; [| apply NoDup_singleton].
  intros x Hx ->%list_elem_of_singleton. apply mem_keys in Hx. congruence.
Qed.

Lemma NoDup_keys_assign_all kvs : forall d,
  NoDup (keys d) -> NoDup (keys (assign_all d kvs)).
Proof.
  induction kvs as [| [k v] kvs IH]; intros d H; [assumption |].
  apply IH. now apply NoDup_keys_set.
Qed.

(** The value of a key is the one assigned to it last. *)
Lemma get_assign_all kvs : forall d k,
  get k (assign_all d kvs)
  = match last (filter (fun kv => fst kv = k) kvs) with
    | Some kv => Some (snd kv)
    | None => get k d
    end.
Proof.
  induction kvs as [| [k0 v0] kvs IH]; intros d k; [reflexivity |].
  change (assign_all d ((k0, v0) :: kvs)) with (assign_all (set k0 v0 d) kvs).
  rewrite IH. rewrite filter_cons. cbn [fst snd].
  destruct (decide (k0 = k)) as [-> | Hne].
  - rewrite last_cons.
    destruct (last (filter (fun kv => fst kv = k) kvs)); [reflexivity |].
    simpl. apply get_set_eq.
  - destruct (last (filter (fun kv => fst kv = k) kvs)); [reflexivity |].
    now apply get_set_ne.
Qed.

End Assignments.

Lemma extract_blocks_content_assign source :
  _extract_blocks_content source = assign_all empty (matched_blocks source).
Proof.
  unfold _extract_blocks_content, matched_blocks, assign_all.
  generalize (@empty string) as d. generalize (finditer block_pattern source) as ms.
  induction ms as [| m ms IH]; intros d; [reflexivity |]. simpl. apply IH.
Qed.

(** X10: the dictionary [_extract_blocks_content] returns has each block
    name once; the content it holds for a name is the stripped content of
    the last match with that name, so a later block of the same name
    replaces the earlier content; and every content is stripped, in that
    stripping it again changes nothing. *)
Theorem extracted_blocks_form_a_dictionary source :
  NoDup (keys (_extract_blocks_content source))
  /\ (forall k,
        get k (_extract_blocks_content source)
        = snd <$> last (filter (fun kv => fst kv = k) (matched_blocks source)))
  /\ (forall k v,
        get k (_extract_blocks_content source) = Some v -> strip v = v).
Proof.
  rewrite extract_blocks_content_assign.
  assert (forall k,
            get k (assign_all empty (matched_blocks source))
            = snd <$> last (filter (fun kv => fst kv = k) (matched_blocks source))) as Hget.
  { intros k. rewrite get_assign_all.
    now destruct (last (filter (fun kv => fst kv = k) (matched_blocks source))). }
  split; [apply NoDup_keys_assign_all; constructor |].
  split; [exact Hget |].
  intros k v H. rewrite Hget in H.
  destruct (last (filter (fun kv => fst kv = k) (matched_blocks source))) as [kv |] eqn:E;
    [| discriminate].
  injection H as <-.
  apply last_Some_elem_of in E. apply list_elem_of_filter in E as [_ E].
  apply list_elem_of_In in E. unfold matched_blocks in E.
  apply in_map_iff in E as (m & <- & _). simpl. apply strip_idempotent.
Qed.

(** ** Several variables, one after the other *)

Section MapRuns.

Implicit Types (f g : list ascii -> list ascii) (run l F : list ascii).

Lemma rename_runs_map_runs old new l : forall run,
  rename_runs old new run l
  = map_runs (fun u => if bool_decide (u = old) then new else u) run l.
Proof.
  assert (forall run,
            written old new run
            = image (fun u => if bool_decide (u = old) then new else u) run) as Hw.
  { intros [| a run]; reflexivity. }
  induction l as [| a l IH]; intros run; simpl.
  - apply Hw.
  - destruct (is_word a); [apply IH |]. now rewrite Hw, IH.
Qed.

Lemma map_runs_ext f g l : forall run,
  (forall u, f u = g u) -> map_runs f run l = map_runs g run l.
Proof.
  intros run H.
  assert (forall run, image f run = image g run) as Hi
    by (intros [| a r]; simpl; auto).
  revert run. induction l as [| a l IH]; intros run; simpl.
  - apply Hi.
  - destruct (is_word a); [apply IH |]. now rewrite Hi, IH.
Qed.

(** Reading a word that is already there. *)
Lemma map_runs_word g F : forall run l,
  Forall (fun a => is_word a = true) F ->
  map_runs g run (F ++ l) = map_runs g (rev F ++ run) l.
Proof.
  induction F as [| a F IH]; intros run l H; [reflexivity |].
  inversion H as [| ? ? Ha HF]; subst. simpl. rewrite Ha.
  rewrite IH by assumption. now rewrite <- app_assoc.
Qed.

Lemma image_word_written f g run :
  (forall u, u <> [] -> Forall (fun a => is_word a = true) u ->
             f u <> [] /\ Forall (fun a => is_word a = true) (f u)) ->
  Forall (fun a => is_word a = true) run ->
  Forall (fun a => is_word a = true) (image f run)
  /\ image g (rev (image f run)) = image (fun u => g (f u)) run.
Proof.
  intros Hf Hrun. destruct run as [| a run]; [split; [constructor | reflexivity] |].
  destruct (Hf (rev (a :: run))) as [Hne Hword].
  - intros E. apply (f_equal (@rev ascii)) in E. now rewrite rev_involutive in E.
  - now apply Forall_rev.
  - cbn [image]. split; [assumption |].
    destruct (rev (f (rev (a :: run)))) eqn:E.
    + apply (f_equal (@rev ascii)) in E. rewrite rev_involutive in E. now simpl in E.
    + cbn [image]. rewrite <- E. now rewrite rev_involutive.
Qed.

(** Two passes over the words are one pass with the composed function, as
    long as the first pass turns words into words. *)
Lemma map_runs_compose f g l : forall run,
  (forall u, u <> [] -> Forall (fun a => is_word a = true) u ->
             f u <> [] /\ Forall (fun a => is_word a = true) (f u)) ->
  Forall (fun a => is_word a = true) run ->
  map_runs g [] (map_runs f run l) = map_runs (fun u => g (f u)) run l.
Proof.
  intros run Hf. revert run.
  induction l as [| a l IH]; intros run Hrun; simpl.
  - destruct (image_word_written f g run Hf Hrun) as [Hw Hi].
    rewrite <- (app_nil_r (image f run)).
    rewrite map_runs_word by assumption. rewrite app_nil_r. simpl. exact Hi.
  - destruct (is_word a) eqn:Ha.
    + apply IH. now constructor.
    + destruct (image_word_written f g run Hf Hrun) as [Hw Hi].
      rewrite map_runs_word by assumption. rewrite app_nil_r. simpl. rewrite Ha.
      rewrite Hi. now rewrite IH by constructor.
Qed.

End MapRuns.

Lemma rename_words_map_words o n content :
  rename_words o n content
  = map_words (fun u => if bool_decide (u = o) then n else u) content.
Proof.
  unfold rename_words, map_words. rewrite rename_runs_map_runs. f_equal.
  apply map_runs_ext. intros u.
  case_bool_decide as H1; case_bool_decide as H2; try reflexivity.
  - exfalso. apply H2. now rewrite H1, text_chars.
  - exfalso. apply H1. now rewrite <- H2, chars_text.
  - now rewrite chars_text.
Qed.

(** The three patterns of one entry, applied to a content. *)
Lemma apply_entry o n content :
  renaming (o, n) ->
  fold_left (fun content pattern => re_sub pattern n content) (variable_patterns o) content
  = rename_words o n content.
Proof.
  intros ((Ho1 & Ho2) & (Hn1 & Hn2) & Hne). simpl in *.
  cbn [fold_left variable_patterns]. unfold re_sub.
  rewrite !chars_text. unfold rename_words. f_equal.
  apply (three_patterns_rename (chars o) (chars n)); try assumption.
  intros E. apply Hne. now rewrite <- (text_chars n), E, text_chars.
Qed.

Lemma apply_renamings mapping : forall self content,
  variable_mappings self = mapping ->
  Forall renaming mapping ->
  _apply_variable_mappings self content
  = fold_left (fun content kv => rename_words (fst kv) (snd kv) content) mapping content.
Proof.
  intros self content E H. unfold _apply_variable_mappings, items.
  rewrite E. clear E. revert content. induction H as [| [o n] mapping Hr _ IH]; intros content.
  - reflexivity.
  - cbn [fold_left fst snd]. rewrite apply_entry by assumption. apply IH.
Qed.

Lemma map_words_ext f g content :
  (forall s, f s = g s) -> map_words f content = map_words g content.
Proof.
  intros H. unfold map_words. f_equal. apply map_runs_ext.
  intros u. now rewrite H.
Qed.

Lemma map_words_compose f g content :
  (forall s, identifier s -> identifier (f s)) ->
  map_words g (map_words f content) = map_words (fun s => g (f s)) content.
Proof.
  intros Hf. unfold map_words. rewrite chars_text. f_equal.
  rewrite map_runs_compose.
  - apply map_runs_ext. intros u. now rewrite text_chars.
  - intros u Hne Hu. apply Hf. unfold identifier. now rewrite chars_text.
  - constructor.
Qed.

Lemma renaming_keeps_identifiers o n s :
  identifier n -> identifier s -> identifier (if bool_decide (s = o) then n else s).
Proof. intros Hn Hs. now case_bool_decide. Qed.

Lemma get_none_mem (mapping : dict string) k : mem k mapping = false -> get k mapping = None.
Proof. unfold mem. now destruct (get k mapping). Qed.

Lemma settled_tail o n (rest : dict string) :
  settled ((o, n) :: rest) -> n <> o /\ mem n rest = false /\ settled rest.
Proof.
  intros H.
  assert (forall k, mem k ((o, n) :: rest) = false -> k <> o /\ mem k rest = false) as Hm.
  { intros k. unfold mem. simpl. destruct (String.eqb_spec o k) as [-> | Hne].
    - discriminate.
    - intros Hk. split; [congruence | assumption]. }
  destruct (Hm n (H (o, n) ltac:(left))) as [Hn Hrest].
  repeat split; try assumption.
  intros kv Hin. apply (Hm (snd kv)). apply H. now right.
Qed.

Lemma get_default_values (mapping : dict string) u :
  get_default u u mapping = u \/ (u, get_default u u mapping) ∈ mapping.
Proof.
  unfold get_default. induction mapping as [| [k v] rest IH]; simpl.
  - now left.
  - destruct (String.eqb_spec k u) as [-> | Hne].
    + right. left.
    + destruct IH as [IH | IH]; [now left | right; now right].
Qed.

Lemma map_runs_same l : forall run, map_runs (fun u => u) run l = rev run ++ l.
Proof.
  assert (forall run, image (fun u => u) run = rev run) as Hi
    by (intros [| a r]; reflexivity).
  induction l as [| a l IH]; intros run; simpl.
  - now rewrite Hi, app_nil_r.
  - destruct (is_word a).
    + rewrite IH. simpl. now rewrite <- app_assoc.
    + now rewrite Hi, IH.
Qed.

Lemma map_words_same f content : (forall s, f s = s) -> map_words f content = content.
Proof.
  intros H. unfold map_words.
  rewrite (map_runs_ext _ (fun u => u)).
  - rewrite map_runs_same. simpl. apply text_chars.
  - intros u. now rewrite H, chars_text.
Qed.

(** With no new name renamed in turn, the entries applied one after the
    other rename every word to what the dictionary holds for it. *)
Lemma settled_renamings mapping : forall content,
  Forall renaming mapping ->
  settled mapping ->
  fold_left (fun content kv => rename_words (fst kv) (snd kv) content) mapping content
  = map_words (fun u => get_default u u mapping) content.
Proof.
  induction mapping as [| [o n] rest IH]; intros content Hr Hs.
  - simpl. now rewrite map_words_same.
  - inversion Hr as [| ? ? Hon Hrest]; subst.
    destruct (settled_tail _ _ _ Hs) as (Hne & Hn & Hs').
    destruct Hon as (Ho & Hnid & _). simpl in Ho, Hnid.
    cbn [fold_left fst snd]. rewrite IH by assumption.
    rewrite rename_words_map_words, map_words_compose
      by (intros s; now apply renaming_keeps_identifiers).
    apply map_words_ext. intros u. unfold get_default. simpl.
    case_bool_decide as Hu.
    + subst u. rewrite String.eqb_refl. now rewrite (get_none_mem rest n).
    + apply not_eq_sym in Hu. apply String.eqb_neq in Hu. now rewrite Hu.
Qed.

Lemma settled_values mapping u :
  settled mapping -> get_default (get_default u u mapping) (get_default u u mapping) mapping
                     = get_default u u mapping.
Proof.
  intros Hs. destruct (get_default_values mapping u) as [E | Hin]; [now rewrite !E |].
  apply Hs in Hin. simpl in Hin.
  unfold get_default at 1. now rewrite (get_none_mem _ _ Hin).
Qed.

Lemma renamings_keep_identifiers mapping s :
  Forall renaming mapping -> identifier s -> identifier (get_default s s mapping).
Proof.
  intros Hr Hs. destruct (get_default_values mapping s) as [-> | Hin]; [assumption |].
  rewrite Forall_forall in Hr. apply Hr in Hin. now destruct Hin as (_ & Hn & _).
Qed.

Section NoneLeft.

Variable f : list ascii -> list ascii.
Variable old : list ascii.
Hypothesis old_nonempty : old <> [].
Hypothesis old_word : Forall (fun a => is_word a = true) old.
Hypothesis f_word : forall u,
  u <> [] -> Forall (fun a => is_word a = true) u ->
  Forall (fun a => is_word a = true) (f u) /\ f u <> old.

Lemma image_not_old run :
  Forall (fun a => is_word a = true) run ->
  Forall (fun a => is_word a = true) (image f run) /\ image f run <> old.
Proof.
  intros H. destruct run as [| a run].
  - split; [constructor | auto].
  - apply f_word.
    + intros E. apply (f_equal (@rev ascii)) in E. now rewrite rev_involutive in E.
    + now apply Forall_rev.
Qed.

Lemma map_runs_no_whole_word l : forall run sn,
  Forall (fun a => is_word a = true) run ->
  first_word sn = false ->
  no_whole_word old sn (map_runs f run l) = true.
Proof.
  induction l as [| a l IH]; intros run sn Hrun Hsn.
  - cbn [map_runs].
    destruct (image_not_old run Hrun) as [Hw Hne].
    rewrite <- (app_nil_r (image f run)).
    rewrite (no_whole_word_block old) by auto.
    cbn [no_whole_word]. now rewrite (word_here_nonword old).
  - cbn [map_runs]. destruct (is_word a) eqn:Ha.
    + apply IH; [now constructor | assumption].
    + destruct (image_not_old run Hrun) as [Hw Hne].
      rewrite (no_whole_word_block old) by (simpl; auto).
      cbn [no_whole_word].
      rewrite (word_here_nonword old) by (simpl; assumption).
      apply IH; [constructor | simpl; assumption].
Qed.

End NoneLeft.

Lemma rename_words_twice a b c d content :
  identifier b ->
  rename_words c d (rename_words a b content)
  = map_words (fun u => let v := if bool_decide (u = a) then b else u in
                        if bool_decide (v = c) then d else v) content.
Proof.
  intros Hb. rewrite !rename_words_map_words.
  now rewrite map_words_compose by (intros s; now apply renaming_keeps_identifiers).
Qed.

Ltac identifiers :=
  repeat match goal with
         | |- renaming _ => split; [| split]
         | |- identifier _ => split; [discriminate | repeat constructor]
         | |- Forall _ _ => constructor
         | |- _ <> _ => discriminate
         end.

(** X11: when every entry of the variable mapping renames an identifier to
    a different identifier, [_apply_variable_mappings] is the word-wise
    renamings of the entries applied one after the other in the order of
    the dictionary, each to the result of the one before. *)
Theorem renamings_apply_one_after_another self content :
  Forall renaming (variable_mappings self) ->
  _apply_variable_mappings self content
  = fold_left (fun content kv => rename_words (fst kv) (snd kv) content)
              (variable_mappings self) content.
Proof. intros H. now apply apply_renamings. Qed.

Lemma renamings_apply_one_after_another_witness :
  let self := with_variables [("user_name", "username"); ("role", "group")] in
  _apply_variable_mappings self "{{ user_name }}: {{ role }}"
  = fold_left (fun content kv => rename_words (fst kv) (snd kv) content)
              (variable_mappings self) "{{ user_name }}: {{ role }}".
Proof.
  apply (renamings_apply_one_after_another
           (with_variables [("user_name", "username"); ("role", "group")])).
  simpl. identifiers.
Defined.

(** X12: two entries that form a chain, [a] to [b] and then [b] to [c],
    send every word [a] and every word [b] to [c]: what the first entry
    wrote is renamed again by the second.  With [c] equal to [a] the pair
    meant as a swap leaves [a] everywhere.  In the other order, [b] to [c]
    first and [a] to [b] after it, with [c] other than [a], each word is
    renamed once. *)
Theorem chained_renamings_collapse self a b c content :
  identifier a -> identifier b -> identifier c -> b <> a -> c <> b ->
  (variable_mappings self = [(a, b); (b, c)] ->
   _apply_variable_mappings self content
   = map_words (fun u => if bool_decide (u = a \/ u = b) then c else u) content)
  /\ (variable_mappings self = [(b, c); (a, b)] -> c <> a ->
      _apply_variable_mappings self content
      = map_words (fun u => if bool_decide (u = b) then c
                            else if bool_decide (u = a) then b else u) content).
Proof.
  intros Ha Hb Hc Hba Hcb. split.
  - intros E. rewrite (apply_renamings _ _ _ E)
      by (constructor; [exact (conj Ha (conj Hb Hba)) |];
          constructor; [exact (conj Hb (conj Hc Hcb)) | constructor]).
    cbn [fold_left fst snd]. rewrite rename_words_twice by assumption.
    apply map_words_ext. intros u. simpl.
    repeat case_bool_decide; try reflexivity; intuition congruence.
  - intros E Hca. rewrite (apply_renamings _ _ _ E)
      by (constructor; [exact (conj Hb (conj Hc Hcb)) |];
          constructor; [exact (conj Ha (conj Hb Hba)) | constructor]).
    cbn [fold_left fst snd]. rewrite rename_words_twice by assumption.
    apply map_words_ext. intros u. simpl.
    repeat case_bool_decide; try reflexivity; intuition congruence.
Qed.

Lemma chained_renamings_collapse_witness :
  let self := with_variables [("user", "account"); ("account", "user")] in
  _apply_variable_mappings self "{{ user }} and {{ account }}"
  = map_words (fun u => if bool_decide (u = "user" \/ u = "account") then "user" else u)
              "{{ user }} and {{ account }}".
Proof.
  refine (proj1 (chained_renamings_collapse
                   (with_variables [("user", "account"); ("account", "user")])
                   "user" "account" "user" "{{ user }} and {{ account }}"
                   _ _ _ _ _) eq_refl);
    identifiers.
Defined.

(** X13: when every entry renames an identifier to a different identifier
    and no new name is itself a key of the mapping, [_apply_variable_mappings]
    renames all words at once, each word to what the dictionary holds for
    it and a word without an entry to itself; no key of the mapping is left
    as a whole word of the result; and applying the mapping to the result
    changes nothing. *)
Theorem settled_renamings_are_simultaneous self content :
  Forall renaming (variable_mappings self) ->
  settled (variable_mappings self) ->
  _apply_variable_mappings self content
  = map_words (fun u => get_default u u (variable_mappings self)) content
  /\ (forall old, old ∈ keys (variable_mappings self) ->
        no_whole_word (chars old) [] (chars (_apply_variable_mappings self content)) = true)
  /\ _apply_variable_mappings self (_apply_variable_mappings self content)
     = _apply_variable_mappings self content.
Proof.
  intros Hr Hs.
  assert (forall content,
            _apply_variable_mappings self content
            = map_words (fun u => get_default u u (variable_mappings self)) content) as E.
  { intros c. rewrite (apply_renamings _ self c eq_refl Hr). now apply settled_renamings. }
  split; [apply E | split].
  - intros old Hold. rewrite E. unfold map_words. rewrite chars_text.
    assert (renaming (old, get_default old old (variable_mappings self))
            /\ mem old (variable_mappings self) = true) as [((Ho1 & Ho2) & _) Hmem].
    { split; [| now apply mem_keys].
      destruct (get_default_values (variable_mappings self) old) as [E0 | Hin].
      - exfalso. apply mem_keys in Hold. unfold mem, get_default in *.
        destruct (get old (variable_mappings self)) as [v |] eqn:G; [| discriminate].
        assert ((old, v) ∈ variable_mappings self) as Hin.
        { clear - G. induction (variable_mappings self) as [| [k0 v0] m IH]; [discriminate |].
          simpl in G. destruct (String.eqb_spec k0 old) as [-> | Hne].
          - injection G as ->. left.
          - right. now apply IH. }
        rewrite Forall_forall in Hr. apply Hr in Hin. destruct Hin as (_ & _ & Hv).
        simpl in Hv. congruence.
      - rewrite Forall_forall in Hr. now apply Hr. }
    simpl in Ho1, Ho2.
    apply map_runs_no_whole_word; try assumption; [| constructor | reflexivity].
    intros u Hne Hu.
    assert (identifier (text u)) as Hid by (unfold identifier; now rewrite chars_text).
    destruct (renamings_keep_identifiers _ _ Hr Hid) as [_ Hw].
    split; [assumption |]. intros Eq.
    assert (get_default (text u) (text u) (variable_mappings self) = old) as Eq'
      by (now rewrite <- (text_chars old), <- Eq, text_chars).
    pose proof (settled_values _ (text u) Hs) as Hfix. rewrite Eq' in Hfix.
    destruct (get_default_values (variable_mappings self) old) as [E0 | Hin].
    + unfold mem, get_default in *.
      destruct (get old (variable_mappings self)) as [v |] eqn:G; [| discriminate].
      subst v.
      assert ((old, old) ∈ variable_mappings self) as Hin.
      { clear - G. induction (variable_mappings self) as [| [k0 v0] m IH]; [discriminate |].
        simpl in G. destruct (String.eqb_spec k0 old) as [-> | Hne].
        - injection G as ->. left.
        - right. now apply IH. }
      rewrite Forall_forall in Hr. apply Hr in Hin. destruct Hin as (_ & _ & Hv).
      now simpl in Hv.
    + rewrite Hfix in Hin. rewrite Forall_forall in Hr. apply Hr in Hin.
      destruct Hin as (_ & _ & Hv). now simpl in Hv.
  - rewrite !E. rewrite map_words_compose
      by (intros s; now apply renamings_keep_identifiers).
    apply map_words_ext. intros u. now apply settled_values.
Qed.

Lemma settled_renamings_are_simultaneous_witness :
  let self := with_variables [("user_name", "username"); ("role", "group")] in
  let content := "{{ user_name }}: {{ role }}" in
  _apply_variable_mappings self content
  = map_words (fun u => get_default u u (variable_mappings self)) content
  /\ (forall old, old ∈ keys (variable_mappings self) ->
        no_whole_word (chars old) [] (chars (_apply_variable_mappings self content)) = true)
  /\ _apply_variable_mappings self (_apply_variable_mappings self content)
     = _apply_variable_mappings self content.
Proof.
  apply (settled_renamings_are_simultaneous
           (with_variables [("user_name", "username"); ("role", "group")])
           "{{ user_name }}: {{ role }}").
  - simpl. identifiers.
  - intros kv Hin. simpl in Hin.
    apply elem_of_cons in Hin as [-> | Hin]; [reflexivity |].
    apply elem_of_cons in Hin as [-> | Hin]; [reflexivity |].
    now apply elem_of_nil in Hin.
Defined.

(** ** Exclusion *)

Section Exclusion.

Implicit Types (cu : cursor) (k : cursor -> option cursor) (w sn rs : list ascii).

(** A repetition succeeds as soon as the rest of the pattern succeeds after
    some characters of the class. *)
Lemma star_complete cl greedy u : forall sn rs rs' gs k,
  rs = u ++ rs' ->
  Forall (fun a => accepts cl a = true) u ->
  is_Some (k (Cursor (rev u ++ sn) rs' gs)) ->
  is_Some (star cl greedy sn rs gs k).
Proof.
  assert (forall A (x y : option A), is_Some x \/ is_Some y -> is_Some (orelse x y)) as Hor.
  { intros A [x |] y [H | H]; simpl; auto. now destruct H. }
  induction u as [| a u IH]; intros sn rs rs' gs k -> Hu Hk.
  - simpl in *. destruct rs' as [| b t]; simpl; [assumption |].
    destruct (accepts cl b); [| assumption].
    destruct greedy; apply Hor; auto.
  - inversion Hu as [| ? ? Ha Hu']; subst. simpl. rewrite Ha.
    assert (is_Some (star cl greedy (a :: sn) (u ++ rs') gs k)) as Hs.
    { apply (IH _ _ rs'); [reflexivity | assumption |].
      simpl in Hk. now rewrite <- app_assoc in Hk. }
    destruct greedy; apply Hor; auto.
Qed.

Lemma star_succeeds cl greedy sn rs gs k :
  is_Some (star cl greedy sn rs gs k)
  <-> exists u rs', rs = u ++ rs'
        /\ Forall (fun a => accepts cl a = true) u
        /\ is_Some (k (Cursor (rev u ++ sn) rs' gs)).
Proof.
  split.
  - intros [c Hc]. apply star_sound in Hc as (u & rs' & E & Hu & Hk).
    exists u, rs'. repeat split; try assumption. now exists c.
  - intros (u & rs' & E & Hu & Hk). now apply (star_complete cl greedy u sn rs rs').
Qed.

Lemma at_end_line_end cu : at_end cu = true <-> line_end (rest cu).
Proof.
  unfold at_end, line_end. destruct (rest cu) as [| a [| b t]].
  - split; auto.
  - rewrite Nat.eqb_eq. unfold code. split.
    + intros H. right. f_equal. rewrite <- (ascii_nat_embedding a). now rewrite H.
    + intros [H | [= ->]]; [discriminate | reflexivity].
  - split; [discriminate | intros [H | H]; discriminate].
Qed.

(** A literal and then [$], with nothing after them in the pattern. *)
Lemma literal_at_end w cu :
  is_Some (run (Cat (lit_chars w) Dollar) cu
             (fun cu' => if false && (length (rest cu') =? 0) then None else Some cu'))
  <-> exists tail, rest cu = w ++ tail /\ line_end tail.
Proof.
  cbn [run andb]. rewrite run_lit, advance_strip_prefix.
  destruct (strip_prefix w (rest cu)) as [rs' |] eqn:E.
  - apply strip_prefix_app in E.
    destruct (at_end (Cursor (rev w ++ seen cu) rs' (groups cu))) eqn:He.
    + apply at_end_line_end in He. simpl in He. split; [| now eexists].
      intros _. now exists rs'.
    + split; [intros [c Hc]; discriminate |].
      intros (tail & E' & Ht). rewrite E in E'. apply app_inv_head in E'. subst tail.
      apply (at_end_line_end (Cursor (rev w ++ seen cu) rs' (groups cu))) in Ht.
      congruence.
  - split; [intros [c Hc]; discriminate |].
    intros (tail & E' & _). apply strip_prefix_app in E'. congruence.
Qed.

Lemma accepts_not_newline u :
  Forall (fun a => accepts not_newline a = true) u <-> one_line u.
Proof.
  unfold one_line. apply Forall_iff. intros a. unfold not_newline. cbn [accepts].
  rewrite negb_true_iff, Ascii.eqb_neq. split; congruence.
Qed.

Lemma backup_pattern_matches p :
  re_match (cat_all [Star not_newline true; escape "_backup.html"; Dollar]) p = true
  <-> backup_path (chars p).
Proof.
  unfold re_match, match_here, backup_path.
  set (k := fun cu : cursor =>
              if false && (length (rest cu) =? length (chars p)) then None else Some cu).
  assert (is_Some (run (cat_all [Star not_newline true; escape "_backup.html"; Dollar])
                       (Cursor [] (chars p) []) k)
          <-> exists body tail,
                one_line body /\ line_end tail
                /\ chars p = body ++ chars "_backup.html" ++ tail) as H.
  { cbn [cat_all run seen rest groups]. rewrite star_succeeds. split.
    - intros (u & rs' & E & Hu & Hk).
      apply (literal_at_end (chars "_backup.html")) in Hk as (tail & Et & Ht).
      simpl in Et. exists u, tail. rewrite accepts_not_newline in Hu.
      repeat split; try assumption. now rewrite E, Et.
    - intros (body & tail & Hb & Ht & E).
      exists body, (chars "_backup.html" ++ tail).
      rewrite accepts_not_newline. repeat split; try assumption.
      apply (literal_at_end (chars "_backup.html")). now exists tail. }
  rewrite <- H. destruct (run _ _ k) as [c |]; split; try discriminate; auto.
  - intros [c Hc]. discriminate.
Qed.

Lemma temp_pattern_matches p :
  re_match (cat_all [escape "temp_"; Star not_newline true; escape ".html"; Dollar]) p = true
  <-> temp_path (chars p).
Proof.
  unfold re_match, match_here, temp_path.
  set (k := fun cu : cursor =>
              if false && (length (rest cu) =? length (chars p)) then None else Some cu).
  assert (is_Some (run (cat_all [escape "temp_"; Star not_newline true; escape ".html"; Dollar])
                       (Cursor [] (chars p) []) k)
          <-> exists body tail,
                one_line body /\ line_end tail
                /\ chars p = chars "temp_" ++ body ++ chars ".html" ++ tail) as H.
  { cbn [cat_all]. cbn [run]. unfold escape at 1. rewrite run_lit, advance_strip_prefix.
    cbn [seen rest groups].
    destruct (strip_prefix (chars "temp_") (chars p)) as [rs0 |] eqn:E0.
    - apply strip_prefix_app in E0. cbn [run seen rest groups]. rewrite star_succeeds. split.
      + intros (u & rs' & E & Hu & Hk).
        apply (literal_at_end (chars ".html")) in Hk as (tail & Et & Ht).
        simpl in Et. exists u, tail. rewrite accepts_not_newline in Hu.
        repeat split; try assumption. now rewrite E0, E, Et.
      + intros (body & tail & Hb & Ht & E).
        rewrite E0 in E. apply app_inv_head in E.
        exists body, (chars ".html" ++ tail).
        rewrite accepts_not_newline. repeat split; try assumption.
        apply (literal_at_end (chars ".html")). now exists tail.
    - split; [intros [c Hc]; discriminate |].
      intros (body & tail & _ & _ & E).
      assert (strip_prefix (chars "temp_") (chars p)
              = Some (body ++ chars ".html" ++ tail)) as E1
        by now apply strip_prefix_app.
      congruence. }
  rewrite <- H. destruct (run _ _ k) as [c |]; split; try discriminate; auto.
  - intros [c Hc]. discriminate.
Qed.

End Exclusion.

(** X14: with the two patterns of the sample configuration a path is
    excluded exactly when it is some text without a newline followed by
    [_backup.html], or [temp_], some text without a newline and [.html];
    either may be followed by one final newline.  The patterns are tried
    at the start of the path only: a backup file is excluded in any
    directory, a [temp_] file only where the path itself starts with
    [temp_]. *)
Theorem sample_patterns_match_from_the_start self p :
  exclude_patterns (config self) = exclude_patterns sample_config ->
  _should_exclude self p = true <-> backup_path (chars p) \/ temp_path (chars p).
Proof.
  intros E. unfold _should_exclude. rewrite E. cbn [exclude_patterns sample_config existsb].
  rewrite orb_false_r, orb_true_iff.
  now rewrite backup_pattern_matches, temp_pattern_matches.
Qed.

Lemma sample_patterns_match_from_the_start_witness :
  _should_exclude (init sample_config) "drafts/temp_home.html" = true
  <-> backup_path (chars "drafts/temp_home.html") \/ temp_path (chars "drafts/temp_home.html").
Proof.
  apply (sample_patterns_match_from_the_start (init sample_config) "drafts/temp_home.html").
  reflexivity.
Defined.

(** ** The automatic variable pass and the rewriting *)

Lemma elem_of_set (d : dict string) k v kv :
  kv ∈ set k v d -> kv = (k, v) \/ kv ∈ d.
Proof.
  induction d as [| [k0 v0] d IH]; simpl.
  - intros H. apply list_elem_of_singleton in H. now left.
  - destruct (String.eqb_spec k0 k) as [-> | Hne]; intros H;
      apply elem_of_cons in H as [-> | H].
    + now left.
    + right. now right.
    + right. left.
    + destruct (IH H) as [-> | H']; [now left | right; now right].
Qed.

Lemma elem_of_fold_fill discovered (table : dict string) : forall (m : dict string) kv,
  kv ∈ fold_left (fill discovered) table m -> kv ∈ m \/ kv ∈ table.
Proof.
  induction table as [| [k v] table IH]; intros m kv H; simpl in H.
  - now left.
  - apply IH in H as [H | H]; [| right; now right].
    unfold fill in H. simpl in H. case_bool_decide; [| now left].
    apply elem_of_set in H as [-> | H]; [right; left | now left].
Qed.

Lemma auto_mappings_rename :
  Forall (fun kv => renaming kv /\ get (snd kv) auto_mappings = None) auto_mappings.
Proof. unfold auto_mappings. repeat constructor; discriminate. Qed.

(** X15: for a migrator without variable mappings, the automatic variable
    pass followed by [_apply_variable_mappings] renames, in any content,
    each word that is a discovered variable and a key of the built-in table
    to the table's value, all in one go, and copies everything else: no
    name the pass writes is renamed again, and a key of the table that was
    not discovered stays. *)
Theorem auto_variables_rename_words self content :
  variable_mappings self = [] ->
  _apply_variable_mappings (_auto_map_variables self) content
  = map_words (fun u => if bool_decide (u ∈ discovered_variables self)
                        then get_default u u auto_mappings else u) content.
Proof.
  intros Hempty.
  destruct (auto_map_variables_fold self) as (Hfold & _). rewrite Hempty in Hfold.
  set (m := variable_mappings (_auto_map_variables self)) in *.
  pose proof auto_mappings_rename as Htable. rewrite Forall_forall in Htable.
  assert (forall kv, kv ∈ m -> kv ∈ auto_mappings) as Hsub.
  { intros kv Hin. rewrite Hfold in Hin. apply elem_of_fold_fill in Hin as [Hin | Hin].
    - now apply elem_of_nil in Hin.
    - assumption. }
  assert (Forall renaming m) as Hr.
  { apply Forall_forall. intros kv Hin. now apply Htable, Hsub. }
  assert (settled m) as Hs.
  { intros kv Hin. unfold mem. rewrite Hfold.
    rewrite get_fold_fill_absent by now apply Htable, Hsub. reflexivity. }
  rewrite (apply_renamings m _ content eq_refl Hr), settled_renamings by assumption.
  apply map_words_ext. intros u. unfold get_default. rewrite Hfold.
  case_bool_decide as Hd.
  - destruct (get u auto_mappings) as [v |] eqn:G.
    + now rewrite (get_fold_fill_discovered _ _ _ u v auto_mappings_keys_distinct Hd G).
    + now rewrite get_fold_fill_absent.
  - now rewrite get_fold_fill_undiscovered.
Qed.

Lemma auto_variables_rename_words_witness :
  _apply_variable_mappings (_auto_map_variables with_auto_variables) "{{ user_name }}"
  = map_words (fun u => if bool_decide (u ∈ discovered_variables with_auto_variables)
                        then get_default u u auto_mappings else u) "{{ user_name }}".
Proof.
  apply (auto_variables_rename_words with_auto_variables "{{ user_name }}").
  reflexivity.
Defined.

(** ** Text outside the blocks *)

Lemma block_pattern_needs_directive sn rs :
  strip_prefix (chars "{%") rs = None -> match_here block_pattern false sn rs = None.
Proof.
  intros H. unfold match_here, block_pattern.
  cbn [block_open app cat_all]. cbn [run]. unfold lit at 1, escape.
  rewrite run_lit, advance_strip_prefix. cbn [rest]. now rewrite H.
Qed.

Lemma no_directive_no_blocks source :
  contains "{%" source = false -> _extract_blocks_content source = empty.
Proof.
  intros H. unfold _extract_blocks_content, finditer.
  rewrite pieces_no_match.
  - now induction (chars source) as [| a l IH].
  - intros pre post E. apply block_pattern_needs_directive.
    now apply (contains_chars_false _ _ H pre).
Qed.

(** X16: from a source in which [{%] does not occur, the template written
    consists of the header lines and the comment lines only: the text of the
    source, which stands in no block, is not copied. *)
Theorem text_outside_blocks_is_dropped self info template_path :
  contains "{%" (source info) = false ->
  _generate_new_template self info template_path
  = join newline (header_lines self ++ comment_lines self info template_path).
Proof.
  intros H. unfold _generate_new_template.
  now rewrite no_directive_no_blocks.
Qed.

Lemma text_outside_blocks_is_dropped_witness :
  _generate_new_template (init sample_config) greeting_facts "greeting.html"
  = join newline (header_lines (init sample_config)
                  ++ comment_lines (init sample_config) greeting_facts "greeting.html").
Proof.
  apply (text_outside_blocks_is_dropped (init sample_config) greeting_facts "greeting.html").
  reflexivity.
Defined.

(** ** The suggested path *)

Section Suggestion.

Import PurePath.

Lemma split_slash_plain c : forall cur,
  Forall (fun a => Ascii.eqb a slash = false) c ->
  split_slash c cur = [rev cur ++ c].
Proof.
  induction c as [| a c IH]; intros cur H; simpl.
  - now rewrite app_nil_r.
  - inversion H as [| ? ? Ha Hc]; subst. rewrite Ha, IH by assumption.
    simpl. now rewrite <- app_assoc.
Qed.

Lemma split_slash_components l : forall cur,
  Forall (fun a => Ascii.eqb a slash = false) cur ->
  Forall (Forall (fun a => Ascii.eqb a slash = false)) (split_slash l cur).
Proof.
  induction l as [| a l IH]; intros cur H; simpl.
  - constructor; [now apply Forall_rev | constructor].
  - destruct (Ascii.eqb a slash) eqn:Ha.
    + constructor; [now apply Forall_rev | apply IH; constructor].
    + apply IH. now constructor.
Qed.

(** The name of a path is one of its components and holds no slash. *)
Lemma name_component p c :
  last (tail (chars p)) = Some c ->
  is_component c = true /\ Forall (fun a => Ascii.eqb a slash = false) c.
Proof.
  intros H. apply last_Some_elem_of in H. unfold tail in H.
  apply list_elem_of_filter in H as [Hc Hin]. split; [assumption |].
  pose proof (split_slash_components (chars p) [] ltac:(constructor)) as HF.
  rewrite Forall_forall in HF. now apply HF.
Qed.

Lemma name_in_folder (folder : list ascii) p c :
  Forall (fun a => Ascii.eqb a slash = false) folder ->
  last (tail (chars p)) = Some c ->
  last (tail (folder ++ slash :: c)) = Some c.
Proof.
  intros Hf Hc. destruct (name_component p c Hc) as [Hcomp Hplain].
  unfold tail.
  assert (forall cur, split_slash (folder ++ slash :: c) cur
                      = [rev cur ++ folder; c]) as ->.
  { induction folder as [| a f IH]; intros cur.
    - simpl. rewrite app_nil_r. now rewrite (split_slash_plain c []).
    - inversion Hf as [| ? ? Ha Hf']; subst. simpl. rewrite Ha, IH by assumption.
      simpl. now rewrite <- app_assoc. }
  assert (filter (fun c0 => is_component c0 = true) [c] = [c]) as Hlast.
  { rewrite filter_cons, filter_nil. now rewrite (decide_True (P := is_component c = true)). }
  rewrite filter_cons, Hlast. now destruct (decide _).
Qed.

Lemma name_under_pages p c :
  last (tail (chars p)) = Some c ->
  last (tail (chars "pages/" ++ chars p)) = Some c.
Proof.
  intros Hc. unfold tail in *. simpl.
  change (split_slash (chars p) []) with (split_slash (chars p) []).
  rewrite filter_cons, decide_True by reflexivity.
  destruct (filter _ (split_slash (chars p) [])) as [| x xs] eqn:E; [discriminate |].
  now rewrite last_cons, Hc.
Qed.

End Suggestion.

(** X17: the suggested path keeps the file name: for a path with a
    non-empty name, the name of [_suggest_template_path] of it is the name
    of the path, whichever rule applies; the folders [admin] and [user]
    take the file alone and drop the directories it was in. *)
Theorem suggested_path_keeps_name template_path :
  PurePath.name template_path <> EmptyString ->
  PurePath.name (_suggest_template_path template_path) = PurePath.name template_path.
Proof.
  intros Hname. unfold PurePath.name in *.
  destruct (last (PurePath.tail (chars template_path))) as [c |] eqn:Hc; [| congruence].
  unfold _suggest_template_path.
  destruct (_ && _).
  - rewrite chars_app. now rewrite (name_under_pages _ c Hc).
  - destruct (contains "admin" _).
    + unfold PurePath.name. rewrite Hc, chars_app, chars_text.
      change (chars "admin/" ++ c) with (chars "admin" ++ PurePath.slash :: c).
      now rewrite (name_in_folder (chars "admin") template_path c
                     ltac:(repeat constructor) Hc).
    + destruct (contains "user" _); [| now rewrite Hc].
      unfold PurePath.name. rewrite Hc, chars_app, chars_text.
      change (chars "user/" ++ c) with (chars "user" ++ PurePath.slash :: c).
      now rewrite (name_in_folder (chars "user") template_path c
                     ltac:(repeat constructor) Hc).
Qed.

Lemma suggested_path_keeps_name_witness :
  PurePath.name (_suggest_template_path "legacy/admin_users.html")
  = PurePath.name "legacy/admin_users.html".
Proof.
  apply (suggested_path_keeps_name "legacy/admin_users.html").
  discriminate.
Defined.

(** ** The mapping step *)

Lemma same_but_variables_eq self r :
  same_setup_but_variables self r -> r = with_variable_mappings (variable_mappings r) self.
Proof.
  destruct self, r. unfold same_setup_but_variables, with_variable_mappings. simpl.
  intros (-> & -> & -> & -> & -> & ->). reflexivity.
Qed.

Lemma same_but_blocks_eq self r :
  same_setup_but_blocks self r -> r = with_block_mappings (block_mappings r) self.
Proof.
  destruct self, r. unfold same_setup_but_blocks, with_block_mappings. simpl.
  intros (-> & -> & -> & -> & -> & ->). reflexivity.
Qed.

Lemma interactive_variable_mapping_eq confirm answer self :
  _interactive_variable_mapping confirm answer self
  = with_variable_mappings
      (variable_pass false confirm answer (auto_map_variables (config self))
         (discovered_variables self) (variable_mappings self)) self.
Proof.
  unfold _interactive_variable_mapping, variable_pass. cbn [orb].
  destruct (auto_map_variables (config self)).
  - rewrite orb_true_r. apply auto_map_variables_eq.
  - rewrite orb_false_r. case_bool_decide; cbn [orb].
    + now rewrite with_variable_mappings_same.
    + destruct confirm; cbn [negb]; [| now rewrite with_variable_mappings_same].
      destruct (manual_variables_fold answer (sorted (discovered_variables self)) self)
        as (Hv & Hs).
      cbn zeta in Hv, Hs. rewrite (same_but_variables_eq _ _ Hs). now rewrite Hv.
Qed.

Lemma interactive_block_mapping_eq confirm answer self :
  _interactive_block_mapping confirm answer self
  = with_block_mappings
      (block_pass false confirm answer (auto_preserve_blocks (config self))
         (discovered_blocks self) (block_mappings self)) self.
Proof.
  unfold _interactive_block_mapping, block_pass. cbn [andb orb].
  case_bool_decide; [now rewrite with_block_mappings_same |].
  set (self1 := if auto_preserve_blocks (config self) then auto_map_blocks self else self).
  assert (self1 = with_block_mappings
                    (if auto_preserve_blocks (config self)
                     then fold_left (fill (discovered_blocks self)) auto_block_mappings
                                    (block_mappings self)
                     else block_mappings self) self) as E1.
  { unfold self1. destruct (auto_preserve_blocks (config self)).
    - apply auto_map_blocks_eq.
    - now rewrite with_block_mappings_same. }
  destruct confirm; cbn [negb]; [| exact E1].
  destruct (manual_blocks_fold answer (sorted (discovered_blocks self1)) self1) as (Hb & Hs).
  cbn zeta in Hb, Hs. rewrite (same_but_blocks_eq _ _ Hs), Hb.
  rewrite E1. reflexivity.
Qed.

Lemma resolve_mappings_eq auto confirm_variables variable_answer confirm_blocks block_answer
    self :
  resolve_mappings auto confirm_variables variable_answer confirm_blocks block_answer self
  = with_block_mappings
      (block_pass auto confirm_blocks block_answer (auto_preserve_blocks (config self))
         (discovered_blocks self) (block_mappings self))
      (with_variable_mappings
         (variable_pass auto confirm_variables variable_answer
            (auto_map_variables (config self)) (discovered_variables self)
            (variable_mappings self)) self).
Proof.
  unfold resolve_mappings, configure_mappings_interactively. destruct auto; cbn [negb].
  - rewrite auto_map_variables_eq. cbn [config with_variable_mappings].
    destruct (auto_preserve_blocks (config self)) eqn:Ha.
    + rewrite interactive_block_mapping_eq. cbn [config with_variable_mappings
        discovered_blocks block_mappings]. now rewrite Ha.
    + unfold block_pass. cbn [andb negb orb]. reflexivity.
  - rewrite interactive_variable_mapping_eq, interactive_block_mapping_eq. reflexivity.
Qed.

(** X18: the mapping step of [main] is two passes that do not read each
    other's result.  The block mapping it ends with is the same whatever the
    operator answers about variables, and the variable mapping is the same
    whatever the operator answers about blocks; with [--auto] the answers
    about variables are not used at all, and the step is the automatic
    variable pass followed, when automatic block mapping is configured, by
    [_interactive_block_mapping] with the operator's answers about blocks.
    Nothing but the two mappings changes. *)
Theorem mapping_passes_are_independent auto cv va cb ba self :
  let after := resolve_mappings auto cv va cb ba self in
  (forall cv' va', block_mappings (resolve_mappings auto cv' va' cb ba self)
                   = block_mappings after)
  /\ (forall cb' ba', variable_mappings (resolve_mappings auto cv va cb' ba' self)
                      = variable_mappings after)
  /\ (forall cv' va', resolve_mappings true cv' va' cb ba self
                      = resolve_mappings true cv va cb ba self)
  /\ resolve_mappings true cv va cb ba self
     = (if auto_preserve_blocks (config self)
        then _interactive_block_mapping cb ba (_auto_map_variables self)
        else _auto_map_variables self)
  /\ config after = config self
  /\ migration_log after = migration_log self
  /\ template_mappings after = template_mappings self
  /\ discovered_variables after = discovered_variables self
  /\ discovered_blocks after = discovered_blocks self.
Proof.
  cbn zeta.
  assert (config (_auto_map_variables self) = config self) as Hc
    by (rewrite auto_map_variables_eq; reflexivity).
  split; [| split; [| split; [| split]]].
  - intros cv' va'. rewrite !resolve_mappings_eq.
    cbn [block_mappings with_block_mappings]. reflexivity.
  - intros cb' ba'. rewrite !resolve_mappings_eq.
    cbn [variable_mappings with_block_mappings with_variable_mappings]. reflexivity.
  - intros cv' va'. rewrite !resolve_mappings_eq.
    unfold variable_pass. cbn [orb]. reflexivity.
  - unfold resolve_mappings. cbn [negb]. rewrite Hc. reflexivity.
  - rewrite resolve_mappings_eq.
    cbn [config migration_log template_mappings discovered_variables discovered_blocks
         with_block_mappings with_variable_mappings].
    repeat split.
Qed.

(** ** Instances on the sample tree *)

Lemma batch_keeps_setup_and_files_witness :
  let self := init sample_config in
  let env := unattended two_of_three in
  let self' := snd (fst (run_migration env true batch_of_three self fresh_world)) in
  let w' := snd (run_migration env true batch_of_three self fresh_world) in
  same_setup self self'
  /\ (forall q, mem q (target_files fresh_world) = true -> mem q (target_files w') = true)
  /\ discovered_variables self ⊆ discovered_variables self'
  /\ discovered_blocks self ⊆ discovered_blocks self'.
Proof.
  exact (batch_keeps_setup_and_files (unattended two_of_three) true batch_of_three
           (init sample_config) fresh_world).
Defined.

Lemma auto_mode_uses_suggestions_witness :
  let self := init sample_config in
  let env := unattended two_of_three in
  let self' := snd (fst (run_migration env true batch_of_three self fresh_world)) in
  let w' := snd (run_migration env true batch_of_three self fresh_world) in
  prompts w' = prompts fresh_world
  /\ (forall p, p ∈ batch_of_three ->
        get p (template_mappings self') = Some (_suggest_template_path p))
  /\ exists entries,
       migration_log self' = migration_log self ++ entries
       /\ Forall (fun e => log_source e ∈ batch_of_three
                           /\ log_target e = _suggest_template_path (log_source e))
                 entries.
Proof.
  exact (auto_mode_uses_suggestions (unattended two_of_three) batch_of_three
           (init sample_config) fresh_world).
Defined.

Lemma extracted_blocks_form_a_dictionary_witness :
  let source := "{% block a %} x {% endblock %}{% block a %}y{% endblock %}" in
  NoDup (keys (_extract_blocks_content source))
  /\ (forall k, get k (_extract_blocks_content source)
        = snd <$> last (filter (fun kv => fst kv = k) (matched_blocks source)))
  /\ (forall k v, get k (_extract_blocks_content source) = Some v -> strip v = v).
Proof.
  exact (extracted_blocks_form_a_dictionary
           "{% block a %} x {% endblock %}{% block a %}y{% endblock %}").
Defined.

(** ** What the loop writes *)

Lemma outcome_writes_nothing env p self w ok self' w' :
  outcome env p self w (ok, self', w') ->
  migration_log self' = migration_log self /\ target_files w' = target_files w.
Proof.
  intros H.
  inversion H as [Hex | s1 w1 Hex Hmap | t s1 w1 Hex Hmap Hl
                  | t s1 w1 template Hex Hmap Hl]; subst;
    [auto | | |]; apply template_mapping_spec in Hmap as (_ & L1 & F1 & _); auto.
Qed.

(** X19: the migration loop adds no entry to the log and writes no file,
    whatever the templates, the operator and the target tree are: a
    template that is not routed away fails, because it cannot be loaded or
    because [_extract_template_info] raises for it.  The templates counted
    as successful are exactly those routed away, excluded by a pattern or
    skipped by the operator. *)
Theorem migration_writes_nothing env auto templates self w :
  let self' := snd (fst (run_migration env auto templates self w)) in
  let w' := snd (run_migration env auto templates self w) in
  let t := fst (fst (run_migration env auto templates self w)) in
  migration_log self' = migration_log self
  /\ target_files w' = target_files w
  /\ successful t = count_routed_away env auto templates self w
  /\ successful t + failed t = length templates.
Proof.
  cbn zeta. unfold run_migration.
  assert (migration_log
            (snd (fst (migrate_all env auto templates self w
                         {| successful := 0; failed := 0 |})))
          = migration_log self
          /\ target_files
               (snd (migrate_all env auto templates self w
                       {| successful := 0; failed := 0 |}))
             = target_files w) as [L F].
  { apply (migrate_all_related env auto
             (fun x y => migration_log (fst y) = migration_log (fst x)
                         /\ target_files (snd y) = target_files (snd x))).
    - intros x. auto.
    - intros x y z (A1 & A2) (B1 & B2). split; congruence.
    - intros p s0 w0. simpl. split; [apply preset_log | reflexivity].
    - intros p s0 w0 ok s1 w1 Hout. simpl. now apply outcome_writes_nothing in Hout. }
  destruct (migrate_all_counts env auto templates self w
              {| successful := 0; failed := 0 |}) as (entries & H).
  destruct (migrate_all env auto templates self w _) as [[t self'] w'].
  simpl in L, F. destruct H as (Hlog & Hs & Hsum). cbn [successful failed] in Hs, Hsum.
  assert (entries = []) as ->.
  { rewrite L in Hlog. rewrite <- (app_nil_r (migration_log self)) in Hlog at 1.
    apply app_inv_head in Hlog. auto. }
  simpl in *. repeat split; auto.
Qed.
